(** * Archive Movie Browser: the TMDB matching cache, the runtime parser
      and the browser's filter pipeline

    A shallow embedding of
    - the TMDB service [services/tmdb.js]: [cleanTitle], [getCacheKey],
      [getFromCache], [setCache], [hasCachedPoster], [throttledFetch],
      [searchMovie], [_fetchFromTMDB];
    - the archive service [services/archive.js]: [parseRuntime];
    - the component [ArchiveMovieBrowser]: [fetchMovies],
      [filteredByRuntime], [displayedMovies];
    followed by the properties of the design specification, each proved
    or refuted on the embedding. *)

From Stdlib Require Import ZArith QArith Qround Ascii String List Permutation Sorted Lia Lqa.
From stdpp Require Import gmap strings list pretty.

Import ListNotations.
Local Open Scope Z_scope.
Local Open Scope string_scope.
Local Open Scope list_scope.

(* ===================================================================== *)
(** * JavaScript strings

  Strings are modelled as Rocq [string]s, that is, sequences of 8-bit
  characters.  The embedding is exact for ASCII titles; the character
  classes below are the ASCII part of JavaScript's [\s], [\d] and [\w]
  (without the [u] flag [\d] and [\w] are ASCII-only in JavaScript
  too), and [toLowerCase] maps [A-Z] to [a-z]. *)
(* ===================================================================== *)

Module Js.

Definition code (c : ascii) : N := N_of_ascii c.

Definition in_range (lo hi : N) (c : ascii) : bool :=
  ((lo <=? code c) && (code c <=? hi))%N.

(** [\d] *)
Definition is_digit (c : ascii) : bool := in_range 48 57 c.
Definition is_upper (c : ascii) : bool := in_range 65 90 c.
Definition is_lower (c : ascii) : bool := in_range 97 122 c.
Definition is_alnum (c : ascii) : bool :=
  is_digit c || is_upper c || is_lower c.
(** [\w] is [A-Za-z0-9_] *)
Definition is_word (c : ascii) : bool :=
  is_alnum c || (code c =? 95)%N.
(** [\s]: tab, line feed, vertical tab, form feed, carriage return,
    space *)
Definition is_space (c : ascii) : bool :=
  in_range 9 13 c || (code c =? 32)%N.

Definition lower_char (c : ascii) : ascii :=
  if is_upper c then ascii_of_N (code c + 32) else c.

Definition chars (s : string) : list ascii := list_ascii_of_string s.
Definition str (l : list ascii) : string := string_of_list_ascii l.

Fixpoint drop_while (p : ascii -> bool) (l : list ascii) : list ascii :=
  match l with
  | [] => []
  | c :: l' => if p c then drop_while p l' else l
  end.

(** Removes the trailing characters satisfying [p]. *)
Definition drop_while_end (p : ascii -> bool) (l : list ascii) : list ascii :=
  rev (drop_while p (rev l)).

(** [String.prototype.toLowerCase] *)
Definition toLowerCase (s : string) : string := str (map lower_char (chars s)).

(** [String.prototype.trim] *)
Definition trim_chars (l : list ascii) : list ascii :=
  drop_while_end is_space (drop_while is_space l).
Definition trim (s : string) : string := str (trim_chars (chars s)).

Fixpoint starts_with (sub l : list ascii) : bool :=
  match sub, l with
  | [], _ => true
  | _ :: _, [] => false
  | a :: sub', b :: l' => if decide (a = b) then starts_with sub' l' else false
  end.

Fixpoint includes_chars (l sub : list ascii) : bool :=
  starts_with sub l ||
  match l with
  | [] => false
  | _ :: l' => includes_chars l' sub
  end.

(** [String.prototype.includes] *)
Definition includes (s sub : string) : bool := includes_chars (chars s) (chars sub).

(** JavaScript truthiness of a string: non-empty. *)
Definition truthy_string (s : string) : bool :=
  match s with EmptyString => false | _ => true end.

(** Truthiness of a value that is a string or [null]. *)
Definition truthy_opt (o : option string) : bool :=
  match o with Some s => truthy_string s | None => false end.

End Js.

(* ===================================================================== *)
(** * The TMDB service ([src/services/tmdb.js]) *)
(* ===================================================================== *)

Module Tmdb.
Import Js.

Definition CACHE_DURATION : Z := 1000 * 60 * 60 * 24 * 7.
Definition MIN_REQUEST_INTERVAL : Z := 100.

(** ** [cleanTitle]

    The three anchored replacements remove a suffix of the title.  A
    regular expression [\s*X\s*$] replaces its leftmost match, which is
    the one whose leading [\s*] is maximal, so each is computed from the
    end of the string: skip the trailing white space, recognise the
    year pattern, skip the white space in front of it. *)

Definition all_digits (l : list ascii) : bool := forallb is_digit l.

(** [.replace(/\s*<open>\d{4}<close>\s*$/, '')] for a one-character
    [open] and [close], on the characters of the title. *)
Definition strip_enclosed_year (open close : ascii) (l : list ascii) : list ascii :=
  match drop_while is_space (rev l) with
  | c :: d4 :: d3 :: d2 :: d1 :: o :: rest =>
      if bool_decide (c = close) && all_digits [d1; d2; d3; d4] && bool_decide (o = open)
      then rev (drop_while is_space rest)
      else l
  | _ => l
  end.

(** [.replace(/\s*-\s*\d{4}\s*$/, '')] *)
Definition strip_dash_year (l : list ascii) : list ascii :=
  match drop_while is_space (rev l) with
  | d4 :: d3 :: d2 :: d1 :: rest =>
      if all_digits [d1; d2; d3; d4] then
        match drop_while is_space rest with
        | dash :: rest' =>
            if bool_decide (dash = "-"%char)
            then rev (drop_while is_space rest')
            else l
        | [] => l
        end
      else l
  | _ => l
  end.

(** [.replace(/[^\w\s]/g, ' ')] *)
Definition replace_special (l : list ascii) : list ascii :=
  map (fun c => if is_word c || is_space c then c else " "%char) l.

(** [.replace(/\s+/g, ' ')]: every maximal run of white space becomes
    one space.  [in_run] tells that the previous character belonged to
    a run that has already been replaced. *)
Fixpoint collapse_from (in_run : bool) (l : list ascii) : list ascii :=
  match l with
  | [] => []
  | c :: l' =>
      if is_space c
      then (if in_run then collapse_from true l'
            else " "%char :: collapse_from true l')
      else c :: collapse_from false l'
  end.

Definition collapse_spaces (l : list ascii) : list ascii :=
  collapse_from false l.

Definition cleanTitle_chars (l : list ascii) : list ascii :=
  trim_chars
    (collapse_spaces
       (replace_special
          (strip_dash_year
             (strip_enclosed_year "["%char "]"%char
                (strip_enclosed_year "("%char ")"%char l))))).

Definition cleanTitle (title : string) : string :=
  str (cleanTitle_chars (chars title)).

(** ** Cache keys and the match cache *)

(** A year is a number or [null]; [year || 'unknown'] takes ['unknown']
    for [null] and for [0]. *)
Definition year_or_unknown (year : option Z) : string :=
  match year with
  | Some y => if bool_decide (y = 0) then "unknown" else pretty y
  | None => "unknown"
  end.

Definition getCacheKey (title : string) (year : option Z) : string :=
  trim (toLowerCase title) +:+ "-" +:+ year_or_unknown year.

(** The candidate records of the search endpoint ([data.results]). *)
Record tmdb_movie := {
  m_id : Z;
  m_title : string;
  poster_path : option string;
  backdrop_path : option string;
  release_date : option string;
  m_overview : string;
  vote_average : Q;
  genre_ids : list Z
}.

(** The record [_fetchFromTMDB] builds from the best match. *)
Record match_result := {
  r_id : Z;
  r_title : string;
  posterPath : option string;
  backdropPath : option string;
  releaseDate : option string;
  overview : string;
  voteAverage : Q;
  genreIds : list Z
}.

(** An entry of [tmdbCache]; [data = None] is the JavaScript [null]. *)
Record cache_entry := {
  data : option match_result;
  timestamp : Z
}.

(** The object returned by [getFromCache]. *)
Record cache_read := {
  found : bool;
  found_data : option match_result
}.

Definition getFromCache (cache : gmap string cache_entry)
    (title : string) (year : option Z) (now : Z) : cache_read :=
  match cache !! getCacheKey title year with
  | Some cached =>
      if (now - timestamp cached <? CACHE_DURATION)%Z
      then {| found := true; found_data := data cached |}
      else {| found := false; found_data := None |}
  | None => {| found := false; found_data := None |}
  end.

Definition setCache (cache : gmap string cache_entry)
    (title : string) (year : option Z) (d : option match_result) (now : Z)
    : gmap string cache_entry :=
  <[getCacheKey title year := {| data := d; timestamp := now |}]> cache.

(** [hasCachedPoster]: [Some true], [Some false] or [None] for the
    JavaScript [true], [false] and [null]. *)
Definition hasCachedPoster (cache : gmap string cache_entry)
    (title : string) (year : option Z) : option bool :=
  match cache !! getCacheKey title year with
  | Some cached =>
      match data cached with
      | Some d => if truthy_opt (posterPath d) then Some true else None
      | None => Some false
      end
  | None => None
  end.

(** ** Best match *)

Definition title_matches (cleanedTitle : string) (movie : tmdb_movie) : bool :=
  let movieTitle := toLowerCase (m_title movie) in
  let searchTitle := toLowerCase cleanedTitle in
  bool_decide (movieTitle = searchTitle)
  || includes movieTitle searchTitle
  || includes searchTitle movieTitle.

(** The [bestMatch] variable of [_fetchFromTMDB] for a result list. *)
Definition bestMatch (cleanedTitle : string) (results : list tmdb_movie)
    : option tmdb_movie :=
  match results with
  | [] => None
  | first :: _ =>
      match List.find (title_matches cleanedTitle) results with
      | Some movie => Some movie
      | None => if truthy_opt (poster_path first) then Some first else None
      end
  end.

Definition to_result (m : tmdb_movie) : match_result :=
  {| r_id := m_id m;
     r_title := m_title m;
     posterPath := poster_path m;
     backdropPath := backdrop_path m;
     releaseDate := release_date m;
     overview := m_overview m;
     voteAverage := vote_average m;
     genreIds := genre_ids m |}.

(** What the search request comes back with. *)
Inductive response :=
| NetworkError                       (* [fetch] or [response.json()] rejects *)
| HttpError (status : Z)             (* [response.ok] is false *)
| HttpOk (results : option (list tmdb_movie)).
                                     (* the body; [None]: no [results] field *)

(** The value [_fetchFromTMDB] caches and returns once the response is
    there. *)
Definition fetch_result (title : string) (resp : response) : option match_result :=
  match resp with
  | NetworkError => None
  | HttpError _ => None
  | HttpOk None => None
  | HttpOk (Some results) => to_result <$> bestMatch (cleanTitle title) results
  end.

(** ** The service: cache, pending map, rate-limiter clock

    JavaScript runs the service on one event loop.  A call of
    [searchMovie] runs synchronously up to its first suspension; a
    lookup ([_fetchFromTMDB]) is suspended either on the timer of
    [throttledFetch] or on the network.  The state below holds the
    module-level variables of [tmdb.js] and the suspended lookups, and
    every run-to-suspension is one transition.  [Date.now()] and the
    response of the network are inputs of the transitions; within one
    transition all readings of [Date.now()] are the same millisecond. *)

Inductive phase :=
| Throttled (due : Z)   (* waiting for [setTimeout]; it fires at [due] or later *)
| Sent.                 (* [fetch(url)] has been called *)

(** A suspended invocation [_fetchFromTMDB(title, year, cacheKey)]; its
    promise is identified by [l_id].  [l_started] records the time of
    the call and is not used by the code. *)
Record lookup := {
  l_id : nat;
  l_key : string;
  l_title : string;
  l_year : option Z;
  l_started : Z;
  l_phase : phase
}.

Record service := {
  enabled : bool;                           (* [this.enabled] *)
  tmdbCache : gmap string cache_entry;
  pendingRequests : gmap string nat;        (* cache key to promise *)
  lastRequestTime : Z;
  inflight : list lookup;                   (* the suspended lookups *)
  nextId : nat;                             (* next fresh promise *)
  requests : list (string * Z)              (* log of the [fetch] calls:
                                               key and time, latest first *)
}.

(** The state after the module is loaded: [loadCacheFromStorage] has
    filled the cache with whatever the storage held. *)
Definition init (stored : gmap string cache_entry) : service :=
  {| enabled := false;
     tmdbCache := stored;
     pendingRequests := ∅;
     lastRequestTime := 0;
     inflight := [];
     nextId := 0%nat;
     requests := [] |}.

(** [setApiKey]: [this.enabled = !!apiKey]; the cache is kept. *)
Definition setApiKey (apiKey : option string) (st : service) : service :=
  {| enabled := truthy_opt apiKey;
     tmdbCache := tmdbCache st;
     pendingRequests := pendingRequests st;
     lastRequestTime := lastRequestTime st;
     inflight := inflight st;
     nextId := nextId st;
     requests := requests st |}.

(** [lastRequestTime = Date.now(); return fetch(url)] *)
Definition issue (key : string) (now : Z) (st : service) : service :=
  {| enabled := enabled st;
     tmdbCache := tmdbCache st;
     pendingRequests := pendingRequests st;
     lastRequestTime := now;
     inflight := inflight st;
     nextId := nextId st;
     requests := (key, now) :: requests st |}.

(** [throttledFetch] up to its suspension: either on the timer, or on
    the network after the request went out. *)
Definition throttledFetch (key : string) (now : Z) (st : service) : phase * service :=
  let timeSinceLastRequest := now - lastRequestTime st in
  if (timeSinceLastRequest <? MIN_REQUEST_INTERVAL)%Z
  then (Throttled (now + (MIN_REQUEST_INTERVAL - timeSinceLastRequest)), st)
  else (Sent, issue key now st).

(** How a call of [searchMovie] ends its synchronous part. *)
Inductive outcome :=
| Returned (r : option match_result)   (* resolved at once *)
| Joined (p : nat)                     (* the promise found in the pending map *)
| Started (p : nat).                   (* a new lookup, awaited by the caller *)

(** [pendingRequests.set(cacheKey, requestPromise)] for the lookup just
    started. *)
Definition register (l : lookup) (st : service) : service :=
  {| enabled := enabled st;
     tmdbCache := tmdbCache st;
     pendingRequests := <[l_key l := l_id l]> (pendingRequests st);
     lastRequestTime := lastRequestTime st;
     inflight := l :: inflight st;
     nextId := S (nextId st);
     requests := requests st |}.

(** [searchMovie] up to the point where it returns or awaits. *)
Definition searchMovie (title : string) (year : option Z) (now : Z)
    (st : service) : outcome * service :=
  if negb (enabled st) then (Returned None, st) else
  let cacheKey := getCacheKey title year in
  let cached := getFromCache (tmdbCache st) title year now in
  if found cached then (Returned (found_data cached), st) else
  match pendingRequests st !! cacheKey with
  | Some p => (Joined p, st)
  | None =>
      let '(ph, st1) := throttledFetch cacheKey now st in
      let l := {| l_id := nextId st; l_key := cacheKey; l_title := title;
                  l_year := year; l_started := now; l_phase := ph |} in
      (Started (l_id l), register l st1)
  end.

(** The suspended lookup with promise [p]. *)
Definition find_lookup (p : nat) (ls : list lookup) : option lookup :=
  List.find (fun l => Nat.eqb (l_id l) p) ls.

(** The lookup with promise [p] moves on to phase [ph]. *)
Definition set_phase (p : nat) (ph : phase) (ls : list lookup) : list lookup :=
  map (fun l => if Nat.eqb (l_id l) p
                then {| l_id := l_id l; l_key := l_key l; l_title := l_title l;
                        l_year := l_year l; l_started := l_started l;
                        l_phase := ph |}
                else l) ls.

(** The timer of a throttled lookup fires: the rest of
    [throttledFetch] runs. *)
Definition timerFired (p : nat) (now : Z) (st : service) : service :=
  match find_lookup p (inflight st) with
  | Some l =>
      match l_phase l with
      | Throttled _ =>
          let st1 := issue (l_key l) now st in
          {| enabled := enabled st1;
             tmdbCache := tmdbCache st1;
             pendingRequests := pendingRequests st1;
             lastRequestTime := lastRequestTime st1;
             inflight := set_phase p Sent (inflight st1);
             nextId := nextId st1;
             requests := requests st1 |}
      | Sent => st
      end
  | None => st
  end.

(** The request of a lookup settles: the rest of [_fetchFromTMDB] runs
    ([setCache], [return]), and then the [finally] of the [searchMovie]
    call that started it deletes the pending entry.  The continuation
    after [await requestPromise] runs before the event loop takes up
    another task, so both happen in one transition.  The result is
    what every caller awaiting the promise receives. *)
Definition settle (p : nat) (resp : response) (now : Z) (st : service)
    : option (option match_result) * service :=
  match find_lookup p (inflight st) with
  | Some l =>
      match l_phase l with
      | Sent =>
          let result := fetch_result (l_title l) resp in
          (Some result,
           {| enabled := enabled st;
              tmdbCache := setCache (tmdbCache st) (l_title l) (l_year l) result now;
              pendingRequests := delete (l_key l) (pendingRequests st);
              lastRequestTime := lastRequestTime st;
              inflight := List.filter (fun l' => negb (Nat.eqb (l_id l') p)) (inflight st);
              nextId := nextId st;
              requests := requests st |})
      | Throttled _ => (None, st)
      end
  | None => (None, st)
  end.

(** What happens to the service. *)
Inductive event :=
| ESetApiKey (apiKey : option string)
| ESearch (title : string) (year : option Z) (now : Z)
| ETimer (p : nat) (now : Z)
| EResponse (p : nat) (resp : response) (now : Z).

Definition exec (e : event) (st : service) : service :=
  match e with
  | ESetApiKey k => setApiKey k st
  | ESearch title year now => snd (searchMovie title year now st)
  | ETimer p now => timerFired p now st
  | EResponse p resp now => snd (settle p resp now st)
  end.

Definition run (es : list event) (st : service) : service :=
  fold_left (fun st e => exec e st) es st.

Definition event_time (e : event) : option Z :=
  match e with
  | ESetApiKey _ => None
  | ESearch _ _ now | ETimer _ now | EResponse _ _ now => Some now
  end.

(** The events of [es] carry non-decreasing clock readings, none
    before [t]. *)
Fixpoint timed_from (t : Z) (es : list event) : Prop :=
  match es with
  | [] => True
  | e :: es' =>
      match event_time e with
      | Some t' => t <= t' /\ timed_from t' es'
      | None => timed_from t es'
      end
  end.



(** Consecutive entries of a request log (latest first) are at least
    [MIN_REQUEST_INTERVAL] apart. *)
Fixpoint well_spaced (rs : list (string * Z)) : Prop :=
  match rs with
  | (_, t2) :: rest =>
      match rest with
      | (_, t1) :: _ => MIN_REQUEST_INTERVAL <= t2 - t1
      | [] => True
      end /\ well_spaced rest
  | [] => True
  end.

(** ** The shape of a cleaned title

    [spaced after_space l]: every character of [l] is a word character
    or the space character, and no space follows a space (nor stands
    first when [after_space] is set). *)
Fixpoint spaced (after_space : bool) (l : list ascii) : bool :=
  match l with
  | [] => true
  | c :: l' =>
      if is_space c
      then bool_decide (c = " "%char) && negb after_space && spaced true l'
      else is_word c && spaced false l'
  end.

Definition ends_in_space (l : list ascii) : bool :=
  match last l with
  | Some c => is_space c
  | None => false
  end.

(** Word characters separated by single spaces, no space at either
    end. *)
Definition normalised (l : list ascii) : bool :=
  spaced true l && negb (ends_in_space l).

(** ** The words of a title

    What [cleanTitle] returns is stated with the maximal runs of word
    characters of a title. *)







(** ** Predicates used in the properties below *)

(** A candidate title equals, contains or is contained by the query
    title, letter case ignored. *)
Definition ci_equal (a b : string) : Prop := toLowerCase a = toLowerCase b.
Definition ci_contains (a b : string) : Prop :=
  exists pre post, chars (toLowerCase a) = pre ++ chars (toLowerCase b) ++ post.
Definition close_match (query : string) (c : tmdb_movie) : Prop :=
  ci_equal (m_title c) query \/
  ci_contains (m_title c) query \/
  ci_contains query (m_title c).

(** A candidate with the given identifier, title and poster reference. *)
Definition movie (i : Z) (t : string) (poster : option string) : tmdb_movie :=
  {| m_id := i; m_title := t; poster_path := poster; backdrop_path := None;
     release_date := None; m_overview := ""; vote_average := 0%Q;
     genre_ids := [] |}.

(** The pending map is the index of the suspended lookups, which have
    pairwise distinct keys and promises. *)
Record wf (st : service) : Prop := {
  wf_keys : NoDup (map l_key (inflight st));
  wf_ids : NoDup (map l_id (inflight st));
  wf_pending : forall k p,
    pendingRequests st !! k = Some p <->
    exists l, l ∈ inflight st /\ l_key l = k /\ l_id l = p;
  wf_fresh : forall l, l ∈ inflight st -> (l_id l < nextId st)%nat;
  wf_key : forall l, l ∈ inflight st ->
    getCacheKey (l_title l) (l_year l) = l_key l
}.

(** [set_phase] changes nothing but phases. *)
Definition same_lookup (l l' : lookup) : Prop :=
  l_id l' = l_id l /\ l_key l' = l_key l /\ l_title l' = l_title l /\
  l_year l' = l_year l /\ l_started l' = l_started l.








(** The request failed in transport or the server answered with a
    non-success status. *)
Definition is_error (resp : response) : Prop :=
  resp = NetworkError \/ exists status, resp = HttpError status.

(** The server answered successfully with no candidates. *)
Definition is_empty (resp : response) : Prop :=
  resp = HttpOk None \/ resp = HttpOk (Some []).

(** Sample data. *)
Definition alien : tmdb_movie := movie 348 "Alien" (Some "/alien.jpg").

Definition alien_lookup : lookup :=
  {| l_id := 0; l_key := "alien-unknown"; l_title := "Alien";
     l_year := None; l_started := 1000; l_phase := Sent |}.

End Tmdb.

(* ===================================================================== *)
(** * JavaScript numbers

  A number is [NaN] or a rational; the arithmetic of [parseRuntime] and
  of the filters is exact on rationals (the rounding of IEEE doubles is
  not modelled).  Results are kept in lowest terms. *)
(* ===================================================================== *)

Module JsNum.
Import Js.

Inductive jsnum :=
| NaN
| Num (q : Q).

Definition of_N (n : N) : jsnum := Num (inject_Z (Z.of_N n)).

Definition add (a b : jsnum) : jsnum :=
  match a, b with
  | Num x, Num y => Num (Qred (x + y))
  | _, _ => NaN
  end.

Definition mul (a b : jsnum) : jsnum :=
  match a, b with
  | Num x, Num y => Num (Qred (x * y))
  | _, _ => NaN
  end.

(** Division by a non-zero constant. *)
Definition div_by (a : jsnum) (d : positive) : jsnum :=
  match a with
  | Num x => Num (Qred (x / inject_Z (Z.pos d)))
  | NaN => NaN
  end.

(** [a < b], [a <= b], [a >= b], [a === b]: false when an operand is
    [NaN]. *)
Definition lt (a b : jsnum) : bool :=
  match a, b with
  | Num x, Num y => negb (Qle_bool y x)
  | _, _ => false
  end.

Definition le (a b : jsnum) : bool :=
  match a, b with
  | Num x, Num y => Qle_bool x y
  | _, _ => false
  end.

Definition ge (a b : jsnum) : bool := le b a.

Definition strict_eq (a b : jsnum) : bool :=
  match a, b with
  | Num x, Num y => Qeq_bool x y
  | _, _ => false
  end.

(** The value of a string of decimal digits. *)
Definition digits_value (l : list ascii) : N :=
  fold_left (fun acc c => (acc * 10 + (code c - 48))%N) l 0%N.

(** [Number(s)] for the strings read here: white space around the
    literal is ignored, the empty literal is 0, a literal of decimal
    digits is its value.  Every other string is read as [NaN]; signed,
    fractional, exponent and radix-prefixed literals, which JavaScript
    also accepts, are outside the embedding. *)
Definition Number (s : string) : jsnum :=
  let l := trim_chars (chars s) in
  if forallb is_digit l then of_N (digits_value l) else NaN.

End JsNum.

(* ===================================================================== *)
(** * The archive service ([src/services/archive.js]) *)
(* ===================================================================== *)

Module Archive.
Import Js JsNum.

(** [s.split(':')] on the characters of [s]; [cur] is the component
    being read, reversed. *)
Fixpoint split_go (sep : ascii) (cur : list ascii) (l : list ascii)
    : list (list ascii) :=
  match l with
  | [] => [rev cur]
  | c :: l' =>
      if bool_decide (c = sep)
      then rev cur :: split_go sep [] l'
      else split_go sep (c :: cur) l'
  end.

Definition split (sep : ascii) (s : string) : list string :=
  map str (split_go sep [] (chars s)).

(** [runtimeStr.match(/(\d+)/)]: the first maximal run of digits. *)
Fixpoint take_while (p : ascii -> bool) (l : list ascii) : list ascii :=
  match l with
  | [] => []
  | c :: l' => if p c then c :: take_while p l' else []
  end.

Definition first_digits (s : string) : option (list ascii) :=
  match drop_while (fun c => negb (is_digit c)) (chars s) with
  | [] => None
  | l => Some (take_while is_digit l)
  end.

(** [parseRuntime]; the argument is the [runtime] field of the archive
    document, [None] when the field is missing. *)
Definition parseRuntime (runtime : option string) : jsnum :=
  match runtime with
  | None => of_N 0
  | Some runtimeStr =>
      if negb (truthy_string runtimeStr) then of_N 0 else
      let by_digits :=
        match first_digits runtimeStr with
        | Some numMatch => of_N (digits_value numMatch)
        | None => of_N 0
        end in
      if includes runtimeStr ":" then
        match map Number (split ":"%char runtimeStr) with
        | [p0; p1; p2] =>
            add (add (mul p0 (of_N 60)) p1) (div_by p2 60)
        | [p0; p1] =>
            if lt p0 (of_N 10)
            then add p0 (div_by p1 60)
            else add (mul p0 (of_N 60)) p1
        | _ => by_digits
        end
      else by_digits
  end.

(** The rule for two components in the words of the specification:
    a first component below 10 is read as hours and minutes, every
    other as minutes and seconds; the result is in minutes. *)
Definition spec_two_components (a b : N) : jsnum :=
  if (a <? 10)%N
  then add (mul (of_N a) (of_N 60)) (of_N b)
  else add (of_N a) (div_by (of_N b) 60).

End Archive.

(* ===================================================================== *)
(** * The browser component ([src/components/ArchiveMovieBrowser.jsx]) *)
(* ===================================================================== *)

Module Browser.
Import Js JsNum.

(** The fields of a catalogue item the component reads. *)
Record movie := {
  identifier : string;
  title : string;
  year : option Z;
  runtimeMinutes : jsnum;
  genres : list string
}.

(** ** [fetchMovies]: the [movies] state *)

(** How the request of [archiveService.fetchMovies] ends. *)
Inductive fetched :=
| Page (resultMovies : list movie)
| Failed.

(** The update of [movies] made by [fetchMovies(pageNum, shouldAppend)]
    once the request has ended. *)
Definition fetchMovies (pageNum : Z) (shouldAppend : bool) (result : fetched)
    (prev : list movie) : list movie :=
  match result with
  | Page resultMovies =>
      if shouldAppend && (1 <? pageNum)%Z then
        let existingIds : gset string := list_to_set (map identifier prev) in
        let newMovies :=
          List.filter (fun m => bool_decide (identifier m ∉ existingIds))
                      resultMovies in
        prev ++ newMovies
      else resultMovies
  | Failed => if negb shouldAppend then [] else prev
  end.

(** One completed call of [fetchMovies]. *)
Record load := {
  pageNum : Z;
  shouldAppend : bool;
  result : fetched
}.



(** ** [filteredByRuntime] and [displayedMovies] *)

Inductive content_type := Features | Trailers.

Record filters := {
  activeSearch : string;
  tmdbApiKey : string;
  contentType : content_type;
  minRuntime : jsnum;
  genreFilter : string;
  sortBy : string;
  moviesWithoutImages : gset string;
  tmdbRatings : gmap string Q
}.

(** The runtime and content-type bucket. *)
Definition in_bucket (f : filters) (m : movie) : bool :=
  match contentType f with
  | Trailers =>
      strict_eq (runtimeMinutes m) (of_N 0) || le (runtimeMinutes m) (of_N 30)
  | Features => ge (runtimeMinutes m) (minRuntime f)
  end.

(** The callback of the poster filter: [false] drops the item. *)
Definition poster_not_missing (cache : gmap string Tmdb.cache_entry)
    (f : filters) (m : movie) : bool :=
  if bool_decide (identifier m ∈ moviesWithoutImages f) then false
  else match Tmdb.hasCachedPoster cache (title m) (year m) with
       | Some false => false
       | _ => true
       end.

(** The callback of the [useMemo] that computes [filteredByRuntime];
    when it runs is modelled in [Component] below. *)
Definition filteredByRuntime (cache : gmap string Tmdb.cache_entry)
    (f : filters) (movies : list movie) : list movie :=
  let filtered := List.filter (in_bucket f) movies in
  if negb (truthy_string (activeSearch f)) && truthy_string (tmdbApiKey f)
  then List.filter (poster_not_missing cache f) filtered
  else filtered.

(** [tmdbRatings[id] || 0] *)
Definition rating_of (f : filters) (m : movie) : Q :=
  match tmdbRatings f !! identifier m with
  | Some r => r
  | None => 0%Q
  end.

(** [Array.prototype.sort] is stable; with the comparator
    [ratingB - ratingA] an item stays behind the items in front of it
    unless its rating is strictly higher. *)
Fixpoint insert_by_rating (f : filters) (x : movie) (l : list movie) : list movie :=
  match l with
  | [] => [x]
  | y :: l' =>
      if negb (Qle_bool (rating_of f y) (rating_of f x))
      then y :: insert_by_rating f x l'
      else x :: l
  end.

Definition sort_by_rating (f : filters) (l : list movie) : list movie :=
  fold_right (insert_by_rating f) [] l.

Definition displayedMovies (cache : gmap string Tmdb.cache_entry)
    (f : filters) (movies : list movie) : list movie :=
  let filteredByRuntime := filteredByRuntime cache f movies in
  let filtered :=
    if bool_decide (genreFilter f = "all") then filteredByRuntime
    else List.filter (fun m => bool_decide (genreFilter f ∈ genres m))
                     filteredByRuntime in
  if bool_decide (sortBy f = "tmdb_rating")
  then sort_by_rating f filtered
  else filtered.

Definition item (i : string) : movie :=
  {| identifier := i; title := i; year := None;
     runtimeMinutes := of_N 90; genres := ["Horror"] |}.

End Browser.

(* ===================================================================== *)
(** * The persisted cache ([services/tmdb.js], storage part) *)
(* ===================================================================== *)

Module Storage.
Import Js Tmdb.


(** The object written under [CACHE_STORAGE_KEY]:
    [{ version, timestamp, data }], with the movie entries of the
    cache as [data]. *)
Record envelope := {
  e_version : Z;
  e_timestamp : Z;
  e_data : gmap string cache_entry
}.

(** What [localStorage] holds under the key. *)
Inductive stored :=
| NoItem                (* nothing: [getItem] returns [null] *)
| Unreadable            (* a text that makes [JSON.parse], the destructuring
                           or [Object.entries] throw *)
| Item (e : envelope).  (* the text of an envelope; a missing or
                           non-numeric [version] or [timestamp] compares
                           like a wrong version or an old time stamp *)




(** The timers of [debouncedSave].  [saveTimeout] is the module
    variable, [timers] the timers that are set and have not fired (the
    identifier and the time they are due), [nextTimer] the identifier
    the next [setTimeout] returns; identifiers are positive, as in a
    browser. *)
Record saver := {
  saveTimeout : option nat;
  timers : list (nat * Z);
  nextTimer : nat
}.

Definition saver_init : saver :=
  {| saveTimeout := None; timers := []; nextTimer := 1 |}.

Definition clearTimeout (id : nat) (ts : list (nat * Z)) : list (nat * Z) :=
  List.filter (fun t => negb (Nat.eqb (fst t) id)) ts.

(** [debouncedSave], called by every [setCache]. *)
Definition debouncedSave (now : Z) (s : saver) : saver :=
  let ts := match saveTimeout s with
            | Some id => clearTimeout id (timers s)
            | None => timers s
            end in
  {| saveTimeout := Some (nextTimer s);
     timers := (nextTimer s, now + 2000) :: ts;
     nextTimer := S (nextTimer s) |}.

(** A timer fires and [saveCacheToStorage] runs; [saveTimeout] keeps the
    identifier. *)
Definition timerDone (id : nat) (s : saver) : saver :=
  {| saveTimeout := saveTimeout s;
     timers := clearTimeout id (timers s);
     nextTimer := nextTimer s |}.

Inductive saver_event :=
| Write (now : Z)      (* a [setCache], hence a [debouncedSave] *)
| Fired (id : nat).    (* the timer [id] ran *)

Definition saver_step (s : saver) (e : saver_event) : saver :=
  match e with
  | Write now => debouncedSave now s
  | Fired id => timerDone id s
  end.

Definition saver_run (es : list saver_event) : saver :=
  fold_left saver_step es saver_init.

End Storage.

(* ===================================================================== *)
(** * Runs of the service in which callers do not overlap in the
      throttle *)
(* ===================================================================== *)

Module Pacing.
Import Js Tmdb.

(** No lookup is waiting for the timer of [throttledFetch]. *)
Definition none_throttled (st : service) : Prop :=
  forall l, l ∈ inflight st -> l_phase l = Sent.

(** An event the environment can produce under the discipline: a search
    arrives only when no lookup waits in the throttle, and a timer fires
    no earlier than it is due. *)
Definition admissible (e : event) (st : service) : Prop :=
  match e with
  | ESearch _ _ _ => none_throttled st
  | ETimer p now =>
      forall l due, l ∈ inflight st -> l_id l = p ->
                    l_phase l = Throttled due -> due <= now
  | _ => True
  end.

Fixpoint paced (es : list event) (st : service) : Prop :=
  match es with
  | [] => True
  | e :: es' => admissible e st /\ paced es' (exec e st)
  end.

(** The log is spaced, [lastRequestTime] is the time of the latest
    request, and the lookups waiting in the throttle, all of one
    promise, wait for the end of the interval. *)
Record paced_inv (st : service) : Prop := {
  pi_spaced : well_spaced (requests st);
  pi_last : forall k t rest, requests st = (k, t) :: rest -> lastRequestTime st = t;
  pi_due : forall l due, l ∈ inflight st -> l_phase l = Throttled due ->
             due = lastRequestTime st + MIN_REQUEST_INTERVAL;
  pi_one : forall l l' due due', l ∈ inflight st -> l' ∈ inflight st ->
             l_phase l = Throttled due -> l_phase l' = Throttled due' ->
             l_id l' = l_id l
}.

End Pacing.

(* ===================================================================== *)
(** * Cache keys: the genre list, plain years *)
(* ===================================================================== *)

Module Keys.

(** The key under which [getGenres] keeps the genre list in the same
    cache. *)
Definition GENRES_KEY : string := "genres".

(** A year that is missing or not negative. *)
Definition plain_year (year : option Z) : Prop :=
  match year with Some y => 0 <= y | None => True end.

End Keys.

(* ===================================================================== *)
(** * The archive service, catalogue part ([services/archive.js]) *)
(* ===================================================================== *)

Module Catalog.
Import Js JsNum Archive Browser.

Definition STANDARD_GENRES : list string :=
  ["Action"; "Adventure"; "Animation"; "Comedy"; "Crime"; "Documentary";
   "Drama"; "Family"; "Fantasy"; "Film Noir"; "History"; "Horror"; "Music";
   "Musical"; "Mystery"; "Romance"; "Sci-Fi"; "Short"; "Sport"; "Thriller";
   "War"; "Western"].

(** [GENRE_ALIASES]; [None] is the value [null]. *)
Definition GENRE_ALIASES : list (string * option string) :=
  [("science fiction", Some "Sci-Fi"); ("scifi", Some "Sci-Fi");
   ("sf", Some "Sci-Fi"); ("sci fi", Some "Sci-Fi");
   ("noir", Some "Film Noir");
   ("black and white", None); ("b&w", None); ("silent", None);
   ("silent film", None); ("public domain", None); ("feature", None);
   ("feature film", None); ("feature films", None); ("movies", None);
   ("movie", None); ("film", None); ("classic", None); ("classics", None);
   ("vintage", None); ("old movies", None);
   ("romantic comedy", Some "Romance"); ("rom-com", Some "Romance");
   ("romcom", Some "Romance");
   ("action adventure", Some "Action"); ("action/adventure", Some "Action");
   ("suspense", Some "Thriller"); ("psychological thriller", Some "Thriller");
   ("historical", Some "History"); ("historical drama", Some "History");
   ("biographical", Some "History"); ("biography", Some "History");
   ("biopic", Some "History");
   ("war film", Some "War"); ("world war", Some "War"); ("wwii", Some "War");
   ("ww2", Some "War");
   ("cartoon", Some "Animation"); ("animated", Some "Animation");
   ("childrens", Some "Family"); ("children's", Some "Family");
   ("kids", Some "Family");
   ("musical comedy", Some "Musical");
   ("drama/romance", Some "Drama");
   ("crime drama", Some "Crime"); ("detective", Some "Crime");
   ("gangster", Some "Crime");
   ("horror/thriller", Some "Horror"); ("scary", Some "Horror");
   ("monster", Some "Horror");
   ("sports", Some "Sport"); ("sports drama", Some "Sport")].

(** The own property of [GENRE_ALIASES] named [key]. *)
Fixpoint alias_lookup (key : string) (table : list (string * option string))
    : option (option string) :=
  match table with
  | [] => None
  | (k, v) :: table' =>
      if bool_decide (k = key) then Some v else alias_lookup key table'
  end.

(** [lowerGenre in GENRE_ALIASES] also holds for the properties the
    object inherits from [Object.prototype].  A lower-cased string can
    name only those without a capital letter. *)
Definition INHERITED : list string := ["constructor"; "__proto__"].

(** What [normalizeGenre] returns. *)
Inductive genre_value :=
| GNull
| GName (name : string)
| GInherited (property : string).  (* the inherited value, an object *)

Definition normalizeGenre (genre : string) : genre_value :=
  if negb (truthy_string genre) then GNull else
  let lowerGenre := trim (toLowerCase genre) in
  match alias_lookup lowerGenre GENRE_ALIASES with
  | Some (Some name) => GName name
  | Some None => GNull
  | None =>
      if bool_decide (lowerGenre ∈ INHERITED) then GInherited lowerGenre else
      match List.find (fun g => bool_decide (toLowerCase g = lowerGenre))
                      STANDARD_GENRES with
      | Some standardMatch => GName standardMatch
      | None =>
          match List.find (fun std => includes lowerGenre (toLowerCase std))
                          STANDARD_GENRES with
          | Some std => GName std
          | None => GNull
          end
      end
  end.

(** A field of an archive document that holds a string or an array of
    strings, or is missing. *)
Inductive raw_field :=
| Missing
| Single (s : string)
| Many (l : list string).

(** [s.split(/[;,\/]/)] on the characters of [s]. *)
Definition is_delimiter (c : ascii) : bool :=
  bool_decide (c = ";"%char) || bool_decide (c = ","%char)
  || bool_decide (c = "/"%char).

Fixpoint split_where (p : ascii -> bool) (cur : list ascii) (l : list ascii)
    : list (list ascii) :=
  match l with
  | [] => [rev cur]
  | c :: l' =>
      if p c then rev cur :: split_where p [] l'
      else split_where p (c :: cur) l'
  end.

(** The trimmed parts of all subjects, in order. *)
Definition subject_parts (subject : raw_field) : list string :=
  let subjects := match subject with
                  | Missing => []
                  | Single s => [s]
                  | Many l => l
                  end in
  flat_map (fun s => map (fun part => str (trim_chars part))
                         (split_where is_delimiter [] (chars s)))
           subjects.

(** The genres added to the set, in order; [None] when a part names an
    inherited property: the set then holds an object, and the result is
    outside this embedding. *)
Fixpoint collect_genres (parts : list string) : option (list string) :=
  match parts with
  | [] => Some []
  | part :: parts' =>
      match normalizeGenre part with
      | GNull => collect_genres parts'
      | GName name => cons name <$> collect_genres parts'
      | GInherited _ => None
      end
  end.

(** [Array.prototype.sort] without comparator, on strings. *)
Fixpoint insert_sorted (x : string) (l : list string) : list string :=
  match l with
  | [] => [x]
  | y :: l' => if String.leb x y then x :: l else y :: insert_sorted x l'
  end.

Definition sort_strings (l : list string) : list string :=
  fold_right insert_sorted [] l.

Definition extractGenres (subject : raw_field) : option (list string) :=
  match subject with
  | Missing => Some []
  | Single "" => Some []
  | _ => (fun genres => sort_strings (remove_dups genres))
           <$> collect_genres (subject_parts subject)
  end.

(** The fields of an archive document that are read here. *)
Record doc := {
  d_identifier : string;
  d_title : raw_field;
  d_subject : raw_field;
  d_runtime : option string;
  d_year : option string
}.

(** [Array.isArray(movie.title) ? movie.title[0] : movie.title] *)
Definition title_of (d : doc) : option string :=
  match d_title d with
  | Missing => None
  | Single s => Some s
  | Many l => head l
  end.

(** [x || ''] for a string or [undefined]. *)
Definition or_empty (o : option string) : string :=
  match o with Some s => s | None => "" end.

Definition isBlockedContent (d : doc) : bool :=
  let titleLower := toLowerCase (or_empty (title_of d)) in
  let identifierLower := toLowerCase (d_identifier d) in
  includes titleLower "the child" || includes identifierLower "thechild".

(** [parseInt(s, 10)]: white space, an optional sign, then the longest
    run of decimal digits; [None] stands for [NaN], which every reader
    of the year treats like [null]. *)
Definition parseInt (s : string) : option Z :=
  let l := drop_while is_space (chars s) in
  let '(negative, l') :=
    match l with
    | c :: r => if bool_decide (c = "-"%char) then (true, r)
                else if bool_decide (c = "+"%char) then (false, r)
                else (false, l)
    | [] => (false, l)
    end in
  match take_while is_digit l' with
  | [] => None
  | ds => let n := Z.of_N (digits_value ds) in
          Some (if negative : bool then - n else n)
  end.

(** ** The genre list with every value

    A subject part that names an inherited property puts the value of
    that property, an object, into the set of genres, and the array
    [extractGenres] returns then holds the object among the names.
    [extractGenres_values] is this array in every case; [extractGenres]
    above is the same array when it holds names only. *)

#[global] Instance genre_value_eq_dec : EqDecision genre_value.
Proof. solve_decision. Defined.

(** [if (normalized)] *)
Definition truthy_value (v : genre_value) : bool :=
  match v with
  | GNull => false
  | GName name => truthy_string name
  | GInherited _ => true
  end.

(** The values added to the set, in order. *)
Fixpoint collect_values (parts : list string) : list genre_value :=
  match parts with
  | [] => []
  | part :: parts' =>
      let normalized := normalizeGenre part in
      if truthy_value normalized then normalized :: collect_values parts'
      else collect_values parts'
  end.

(** [String(v)], which [Array.prototype.sort] without comparator
    compares: a name is its own string, the inherited [constructor] is
    the function [Object], the inherited [__proto__] is
    [Object.prototype]. *)
Definition sort_key (v : genre_value) : string :=
  match v with
  | GNull => "null"
  | GName name => name
  | GInherited property =>
      if bool_decide (property = "constructor")
      then "function Object() { [native code] }"
      else "[object Object]"
  end.

Fixpoint insert_by_key (x : genre_value) (l : list genre_value)
    : list genre_value :=
  match l with
  | [] => [x]
  | y :: l' =>
      if String.leb (sort_key x) (sort_key y) then x :: l
      else y :: insert_by_key x l'
  end.

Definition sort_values (l : list genre_value) : list genre_value :=
  fold_right insert_by_key [] l.

Definition extractGenres_values (subject : raw_field) : list genre_value :=
  match subject with
  | Missing => []
  | Single "" => []
  | _ => sort_values (remove_dups (collect_values (subject_parts subject)))
  end.

(** The fields of the object [fetchMovies] builds for a document that
    are read here.  [i_genres] is [extractGenres_values] of the
    subject, or the one entry [Uncategorized].  A [Browser.movie] is
    such an object whose genres are all names. *)
Record item := {
  i_identifier : string;
  i_title : string;
  i_year : option Z;
  i_runtimeMinutes : jsnum;
  i_genres : list genre_value
}.

Definition to_item (d : doc) : item :=
  let genres := extractGenres_values (d_subject d) in
  {| i_identifier := d_identifier d;
     i_title := (if truthy_opt (title_of d) then or_empty (title_of d)
                 else d_identifier d);
     i_year := (match d_year d with
                | Some y => if truthy_string y then parseInt y else None
                | None => None
                end);
     i_runtimeMinutes := parseRuntime (d_runtime d);
     i_genres := (match genres with
                  | [] => [GName "Uncategorized"]
                  | _ => genres
                  end) |}.

(** The [movies] of the object [fetchMovies] returns, for the documents
    of the response ([None]: the response has no [docs]). *)
Definition fetchMovies (docs : option (list doc)) (minRuntime : jsnum)
    : list item :=
  match docs with
  | None => []
  | Some docs =>
      let movies :=
        map to_item (List.filter (fun d => negb (isBlockedContent d)) docs) in
      if lt (of_N 0) minRuntime
      then List.filter (fun m => ge (i_runtimeMinutes m) minRuntime) movies
      else movies
  end.

(** [Math.floor(minutes / 60)] and [Math.round(minutes % 60)] for a
    positive number. *)
Definition hours_of (q : Q) : Z := Qfloor (q / 60)%Q.
Definition minutes_of (q : Q) : Z :=
  Qfloor (q - inject_Z (60 * hours_of q) + (1 # 2))%Q.

Definition formatRuntime (minutes : jsnum) : string :=
  match minutes with
  | NaN => "Unknown"
  | Num q =>
      if Qle_bool q 0%Q then "Unknown" else
      let hrs := hours_of q in
      let mins := minutes_of q in
      if (0 <? hrs)%Z
      then pretty hrs +:+ "h " +:+ pretty mins +:+ "m"
      else pretty mins +:+ "m"
  end.

End Catalog.

(* ===================================================================== *)
(** * The browser component, callbacks and related lists *)
(* ===================================================================== *)

Module Handlers.
Import Js JsNum Browser.

(** [handleImageStatus]: the new [moviesWithoutImages]. *)
Definition handleImageStatus (id : string) (hasImage : bool)
    (prev : gset string) : gset string :=
  if hasImage then prev else prev ∪ {[id]}.

(** [handleTmdbData]: the new [tmdbRatings]; [data] is the match or
    [null]. *)
Definition handleTmdbData (id : string) (data : option Tmdb.match_result)
    (prev : gmap string Q) : gmap string Q :=
  match data with
  | Some d =>
      if Qeq_bool (Tmdb.voteAverage d) 0%Q then prev
      else <[id := Tmdb.voteAverage d]> prev
  | None => prev
  end.

(** [tmdbRatings] is a plain object.  For a key that names a property
    every object inherits, [tmdbRatings[key]] is that property as long
    as no rating is recorded under the key; [Browser.rating_of] is the
    lookup for the other keys. *)
Definition OBJECT_PROTOTYPE : list string :=
  ["constructor"; "__proto__"; "hasOwnProperty"; "isPrototypeOf";
   "propertyIsEnumerable"; "toLocaleString"; "toString"; "valueOf";
   "__defineGetter__"; "__defineSetter__"; "__lookupGetter__";
   "__lookupSetter__"].

Definition own_key (id : string) : bool :=
  negb (bool_decide (id ∈ OBJECT_PROTOTYPE)).

(** The reports of the cards, in the order they arrive. *)
Definition after_reports (reports : list (string * bool)) (prev : gset string)
    : gset string :=
  fold_left (fun s r => handleImageStatus (fst r) (snd r) s) reports prev.

(** [relatedMovies] of [VideoPlayerModal] ([limit] 8) and of
    [MovieDetailPage] ([limit] 12). *)
Definition shares_genre (current m : movie) : bool :=
  existsb (fun g => bool_decide (g ∈ genres current)) (genres m).

Definition relatedMovies (limit : nat) (current : movie) (allMovies : list movie)
    : list movie :=
  firstn limit
    (List.filter (fun m => negb (bool_decide (identifier m = identifier current))
                           && shares_genre current m)
                 allMovies).

End Handlers.

(* ===================================================================== *)
(** * The browser component between renders *)
(* ===================================================================== *)

Module Component.
Import Js JsNum Tmdb Browser Handlers.

(** [filteredByRuntime] is
    [useMemo(callback, [movies, minRuntime, contentType, activeSearch,
    moviesWithoutImages, tmdbApiKey])].  The callback,
    [Browser.filteredByRuntime], runs at a render at which one of the
    listed values differs, by [Object.is], from its value at the render
    before; at every other render the list of the render before is
    kept.  The cache of [tmdb.js], which the callback reads through
    [hasCachedPoster], is a variable of that module: it is not in the
    list, and a write to it renders nothing.

    The state below holds the cache, the state of the component that
    the filters read, and the list [useMemo] holds.  Several state
    updates made by one handler are rendered together; as nothing
    writes the cache in between, rendering them one by one gives the
    same list. *)
Record browser := {
  b_cache : gmap string cache_entry;   (* [tmdbCache] of [tmdb.js] *)
  b_movies : list movie;               (* the state [movies] *)
  b_filters : filters;                 (* the other values the filters read *)
  b_filtered : list movie              (* the list [useMemo] holds *)
}.

(** [Object.is] on numbers and on the two content types. *)
Definition same_number (a b : jsnum) : bool :=
  match a, b with
  | NaN, NaN => true
  | Num x, Num y => Qeq_bool x y
  | _, _ => false
  end.

Definition same_content (a b : content_type) : bool :=
  match a, b with
  | Features, Features | Trailers, Trailers => true
  | _, _ => false
  end.

(** The dependencies that are numbers and strings are compared by
    value. *)
Definition same_primitives (f f' : filters) : bool :=
  same_number (minRuntime f) (minRuntime f')
  && same_content (contentType f) (contentType f')
  && bool_decide (activeSearch f = activeSearch f')
  && bool_decide (tmdbApiKey f = tmdbApiKey f').

(** A render with the state [f'] and [movies'].  [fresh_object] tells
    that [movies] or [moviesWithoutImages] has been set to a newly
    built array or set, which [Object.is] tells from the one before
    whatever it holds. *)
Definition render (fresh_object : bool) (f' : filters) (movies' : list movie)
    (st : browser) : browser :=
  {| b_cache := b_cache st;
     b_movies := movies';
     b_filters := f';
     b_filtered :=
       if negb fresh_object && same_primitives (b_filters st) f'
       then b_filtered st
       else filteredByRuntime (b_cache st) f' movies' |}.

(** The first render: the initial state, and the cache as
    [loadCacheFromStorage] left it. *)
Definition mount (stored : gmap string cache_entry) (apiKey : string) : browser :=
  let f := {| activeSearch := ""; tmdbApiKey := apiKey;
              contentType := Features; minRuntime := of_N 40;
              genreFilter := "all"; sortBy := "downloads";
              moviesWithoutImages := ∅; tmdbRatings := ∅ |} in
  {| b_cache := stored; b_movies := []; b_filters := f;
     b_filtered := filteredByRuntime stored f [] |}.

(** What happens to the component and to the cache it reads. *)
Inductive action :=
| Loaded (ld : load)                     (* a call of [fetchMovies] has ended *)
| HandleSearch (searchQuery : string)    (* [handleSearch] *)
| HandleGenreChange (genre : string)     (* [handleGenreChange] *)
| HandleSortChange (newSort : string)    (* [handleSortChange] *)
| ShowFeatures                           (* the button: features, 40 minutes *)
| ShowTrailers                           (* the button: trailers, 0 minutes *)
| SetMinRuntime (n : jsnum)              (* the slider *)
| ImageStatus (id : string) (hasImage : bool)          (* [handleImageStatus] *)
| TmdbData (id : string) (data : option match_result)  (* [handleTmdbData] *)
| CacheSet (title : string) (year : option Z) (data : option match_result)
           (now : Z).                    (* the service: [setCache] *)

(** A failed load-more sets no [movies]; a card that has an image sets
    nothing; a rating sets [tmdbRatings], which is no dependency. *)
Definition step (a : action) (st : browser) : browser :=
  let f := b_filters st in
  match a with
  | Loaded ld =>
      match result ld, shouldAppend ld with
      | Failed, true => st
      | _, _ =>
          render true f
            (fetchMovies (pageNum ld) (shouldAppend ld) (result ld) (b_movies st))
            st
      end
  | HandleSearch searchQuery =>
      render true
        {| activeSearch := searchQuery; tmdbApiKey := tmdbApiKey f;
           contentType := contentType f; minRuntime := minRuntime f;
           genreFilter := "all"; sortBy := sortBy f;
           moviesWithoutImages := ∅; tmdbRatings := tmdbRatings f |}
        (b_movies st) st
  | HandleGenreChange genre =>
      render true
        {| activeSearch := activeSearch f; tmdbApiKey := tmdbApiKey f;
           contentType := contentType f; minRuntime := minRuntime f;
           genreFilter := genre; sortBy := sortBy f;
           moviesWithoutImages := ∅; tmdbRatings := tmdbRatings f |}
        (b_movies st) st
  | HandleSortChange newSort =>
      render true
        {| activeSearch := activeSearch f; tmdbApiKey := tmdbApiKey f;
           contentType := contentType f; minRuntime := minRuntime f;
           genreFilter := genreFilter f; sortBy := newSort;
           moviesWithoutImages := ∅; tmdbRatings := tmdbRatings f |}
        (b_movies st) st
  | ShowFeatures =>
      render false
        {| activeSearch := activeSearch f; tmdbApiKey := tmdbApiKey f;
           contentType := Features; minRuntime := of_N 40;
           genreFilter := genreFilter f; sortBy := sortBy f;
           moviesWithoutImages := moviesWithoutImages f;
           tmdbRatings := tmdbRatings f |}
        (b_movies st) st
  | ShowTrailers =>
      render false
        {| activeSearch := activeSearch f; tmdbApiKey := tmdbApiKey f;
           contentType := Trailers; minRuntime := of_N 0;
           genreFilter := genreFilter f; sortBy := sortBy f;
           moviesWithoutImages := moviesWithoutImages f;
           tmdbRatings := tmdbRatings f |}
        (b_movies st) st
  | SetMinRuntime n =>
      render false
        {| activeSearch := activeSearch f; tmdbApiKey := tmdbApiKey f;
           contentType := contentType f; minRuntime := n;
           genreFilter := genreFilter f; sortBy := sortBy f;
           moviesWithoutImages := moviesWithoutImages f;
           tmdbRatings := tmdbRatings f |}
        (b_movies st) st
  | ImageStatus id hasImage =>
      if hasImage then st else
      render true
        {| activeSearch := activeSearch f; tmdbApiKey := tmdbApiKey f;
           contentType := contentType f; minRuntime := minRuntime f;
           genreFilter := genreFilter f; sortBy := sortBy f;
           moviesWithoutImages :=
             handleImageStatus id hasImage (moviesWithoutImages f);
           tmdbRatings := tmdbRatings f |}
        (b_movies st) st
  | TmdbData id data =>
      render false
        {| activeSearch := activeSearch f; tmdbApiKey := tmdbApiKey f;
           contentType := contentType f; minRuntime := minRuntime f;
           genreFilter := genreFilter f; sortBy := sortBy f;
           moviesWithoutImages := moviesWithoutImages f;
           tmdbRatings := handleTmdbData id data (tmdbRatings f) |}
        (b_movies st) st
  | CacheSet title year data now =>
      {| b_cache := setCache (b_cache st) title year data now;
         b_movies := b_movies st;
         b_filters := f;
         b_filtered := b_filtered st |}
  end.

Definition steps (acts : list action) (st : browser) : browser :=
  fold_left (fun st a => step a st) acts st.

(** The actions after which the list is recomputed whatever the state:
    those that set [movies] or [moviesWithoutImages]. *)
Definition refreshes (a : action) : bool :=
  match a with
  | Loaded ld =>
      match result ld, shouldAppend ld with
      | Failed, true => false
      | _, _ => true
      end
  | HandleSearch _ | HandleGenreChange _ | HandleSortChange _ => true
  | ImageStatus _ hasImage => negb hasImage
  | _ => false
  end.

(** The actions that change no dependency: writes of the cache, the
    rating of a card, a card's report that it has an image. *)
Definition quiet (a : action) : bool :=
  match a with
  | TmdbData _ _ | CacheSet _ _ _ _ => true
  | ImageStatus _ hasImage => hasImage
  | _ => false
  end.

(** The list held is the callback's value on the present state. *)
Definition fresh (st : browser) : Prop :=
  b_filtered st = filteredByRuntime (b_cache st) (b_filters st) (b_movies st).

End Component.


(* ===================================================================== *)
(** * Sample data *)
(* ===================================================================== *)

Module Samples.
Import Js JsNum Tmdb Browser.

(** A cache whose only entry is a [null] written at time 0. *)
Definition stale_cache : gmap string cache_entry :=
  {[ "zardoz-unknown" := {| data := None; timestamp := 0 |} ]}.

(** Browsing full movies with an API key and no search. *)
Definition browsing : filters :=
  {| activeSearch := ""; tmdbApiKey := "key"; contentType := Features;
     minRuntime := of_N 40; genreFilter := "all"; sortBy := "downloads";
     moviesWithoutImages := ∅; tmdbRatings := ∅ |}.

(** Documents of a response: one with an array title and subjects, one
    without title, one blocked, one whose subject names an inherited
    property. *)
Definition sample_docs : list Catalog.doc :=
  [ {| Catalog.d_identifier := "night_of_the_living_dead";
       Catalog.d_title := Catalog.Many ["Night of the Living Dead"];
       Catalog.d_subject := Catalog.Single "Horror; zombies, classic";
       Catalog.d_runtime := Some "1:35:47";
       Catalog.d_year := Some "1968" |};
    {| Catalog.d_identifier := "plan9";
       Catalog.d_title := Catalog.Missing;
       Catalog.d_subject := Catalog.Missing;
       Catalog.d_runtime := None;
       Catalog.d_year := None |};
    {| Catalog.d_identifier := "thechild1977";
       Catalog.d_title := Catalog.Single "The Child";
       Catalog.d_subject := Catalog.Single "Horror";
       Catalog.d_runtime := Some "82 min";
       Catalog.d_year := Some "1977" |};
    {| Catalog.d_identifier := "metropolis_1927";
       Catalog.d_title := Catalog.Single "Metropolis";
       Catalog.d_subject := Catalog.Single "constructor; Horror";
       Catalog.d_runtime := Some "2:33:00";
       Catalog.d_year := Some "1927" |} ].

End Samples.

(* ===================================================================== *)
(** * Facts about lists and strings used below *)
(* ===================================================================== *)

Module JsFacts.
Import Js.

Lemma elem_of_filter_bool {A} (p : A -> bool) (l : list A) (x : A) :
  x ∈ List.filter p l ↔ x ∈ l ∧ p x = true.
Proof. rewrite !list_elem_of_In. apply filter_In. Qed.

Lemma NoDup_map_filter {A B} (f : A -> B) (p : A -> bool) (l : list A) :
  NoDup (map f l) -> NoDup (map f (List.filter p l)).
Proof.
  induction l as [|a l IH]; simpl; intros Hnd; [constructor|].
  apply NoDup_cons in Hnd as [Hnotin Hnd].
  destruct (p a); simpl; [|by apply IH].
  apply NoDup_cons. split; [|by apply IH].
  intros Hin. apply Hnotin.
  apply list_elem_of_In, in_map_iff in Hin as (y & Hy & Hin).
  apply filter_In in Hin as [Hin _].
  apply list_elem_of_In, in_map_iff. eauto.
Qed.

Lemma find_some_first {A} (p : A -> bool) (l : list A) (x : A) :
  List.find p l = Some x ->
  exists before after,
    l = before ++ x :: after /\ p x = true /\ forall y, y ∈ before -> p y = false.
Proof.
  induction l as [|a l IH]; simpl; [discriminate|].
  destruct (p a) eqn:Hpa.
  - intros [= ->]. exists [], l. split; [done|]. split; [done|].
    intros y Hy. by inversion Hy.
  - intros Hf. destruct (IH Hf) as (before & after & -> & Hpx & Hbefore).
    exists (a :: before), after. split; [done|]. split; [done|].
    intros y Hy. apply elem_of_cons in Hy as [-> | Hy]; auto.
Qed.

Lemma find_none_all {A} (p : A -> bool) (l : list A) :
  List.find p l = None <-> forall y, y ∈ l -> p y = false.
Proof.
  split.
  - intros Hf y Hy. apply list_elem_of_In in Hy. by apply (find_none p l).
  - induction l as [|a l IH]; simpl; [done|].
    intros Hall. rewrite (Hall a) by left. apply IH.
    intros y Hy. apply Hall. by right.
Qed.

(** [starts_with] and [includes_chars] decide prefix and substring. *)
Lemma starts_with_spec (sub l : list ascii) :
  starts_with sub l = true <-> exists post, l = sub ++ post.
Proof.
  revert l. induction sub as [|a sub IH]; intros l; simpl.
  - split; [by exists l|done].
  - destruct l as [|b l].
    + split; [done|]. by intros [post [=]].
    + destruct (decide (a = b)) as [-> | Hne].
      * rewrite IH. split; intros [post Hp]; exists post; congruence.
      * split; [done|]. intros [post [=]]. congruence.
Qed.

Lemma includes_chars_spec (l sub : list ascii) :
  includes_chars l sub = true <-> exists pre post, l = pre ++ sub ++ post.
Proof.
  induction l as [|c l IH]; simpl.
  - rewrite orb_false_r, starts_with_spec. split.
    + intros [post Hp]. by exists [], post.
    + intros (pre & post & Hp). destruct pre; [by exists post|done].
  - rewrite orb_true_iff, starts_with_spec, IH. split.
    + intros [[post Hp]|(pre & post & Hp)].
      * by exists [], post.
      * exists (c :: pre), post. by rewrite Hp.
    + intros ([|a pre] & post & Hp); simpl in Hp.
      * left. by exists post.
      * right. exists pre, post. congruence.
Qed.

End JsFacts.

(* ===================================================================== *)
(** * The match cache and the best-match heuristic *)
(* ===================================================================== *)

Module CacheFacts.
Import Js Tmdb JsFacts.

Lemma getFromCache_absent cache title year now :
  cache !! getCacheKey title year = None ->
  getFromCache cache title year now = {| found := false; found_data := None |}.
Proof. intros H. unfold getFromCache. by rewrite H. Qed.

Lemma getFromCache_fresh cache title year now e :
  cache !! getCacheKey title year = Some e ->
  now - timestamp e < CACHE_DURATION ->
  getFromCache cache title year now = {| found := true; found_data := data e |}.
Proof.
  intros H Hlt. unfold getFromCache. rewrite H.
  destruct (Z.ltb_spec (now - timestamp e) CACHE_DURATION); [done|lia].
Qed.

Lemma getFromCache_expired cache title year now e :
  cache !! getCacheKey title year = Some e ->
  CACHE_DURATION <= now - timestamp e ->
  getFromCache cache title year now = {| found := false; found_data := None |}.
Proof.
  intros H Hle. unfold getFromCache. rewrite H.
  destruct (Z.ltb_spec (now - timestamp e) CACHE_DURATION); [lia|done].
Qed.

Lemma getFromCache_setCache cache title year d t now :
  now - t < CACHE_DURATION ->
  getFromCache (setCache cache title year d t) title year now
  = {| found := true; found_data := d |}.
Proof.
  intros Hlt.
  apply (getFromCache_fresh _ _ _ _ {| data := d; timestamp := t |}); [|done].
  unfold setCache. apply lookup_insert_eq.
Qed.

(** C8.  [getFromCache] tells three states of a (title, year) apart.
    It answers [found = false] exactly when the key has no entry (never
    looked up) or its entry is older than the TTL; for an entry within
    the TTL it answers [found = true] together with the entry's data,
    which is [null] ([None]) after a lookup that completed without a
    match and the record after one that matched.  So a read following
    [setCache] with [null] is [found = true] with [null], and a read of
    the empty cache is [found = false].  [hasCachedPoster] likewise
    answers [null] for a key without entry, [false] for a cached [null]
    and [true] for a cached record with a poster. *)
Theorem getFromCache_three_states
    (cache : gmap string cache_entry) (title : string) (year : option Z) (now : Z) :
  let key := getCacheKey title year in
  let read := getFromCache cache title year now in
  (found read = false <->
     cache !! key = None \/
     exists e, cache !! key = Some e /\ CACHE_DURATION <= now - timestamp e)
  /\ (forall e, cache !! key = Some e -> now - timestamp e < CACHE_DURATION ->
        read = {| found := true; found_data := data e |})
  /\ (found read = false -> found_data read = None)
  /\ (forall t, now - t < CACHE_DURATION ->
        getFromCache (setCache cache title year None t) title year now
        = {| found := true; found_data := None |})
  /\ (forall t r, now - t < CACHE_DURATION ->
        getFromCache (setCache cache title year (Some r) t) title year now
        = {| found := true; found_data := Some r |})
  /\ getFromCache ∅ title year now = {| found := false; found_data := None |}
  /\ (cache !! key = None -> hasCachedPoster cache title year = None)
  /\ (forall e, cache !! key = Some e -> data e = None ->
        hasCachedPoster cache title year = Some false)
  /\ (forall e d, cache !! key = Some e -> data e = Some d ->
        truthy_opt (posterPath d) = true ->
        hasCachedPoster cache title year = Some true).
Proof.
  intros key read. subst key read.
  split; [split|].
  { unfold getFromCache.
    destruct (cache !! getCacheKey title year) as [e|] eqn:He; [|by left].
    destruct (Z.ltb_spec (now - timestamp e) CACHE_DURATION); simpl; [done|].
    intros _. right. by exists e. }
  { intros [Hnone|(e & He & Hle)].
    - by rewrite getFromCache_absent.
    - by rewrite (getFromCache_expired _ _ _ _ e). }
  split; [intros e He Hlt; by apply getFromCache_fresh|].
  split.
  { unfold getFromCache.
    destruct (cache !! getCacheKey title year) as [e|]; [|done].
    by destruct (now - timestamp e <? CACHE_DURATION)%Z. }
  split; [intros t Hlt; by apply getFromCache_setCache|].
  split; [intros t r Hlt; by apply getFromCache_setCache|].
  split; [done|].
  unfold hasCachedPoster.
  split; [by intros ->|].
  split.
  - intros e -> Hd. by rewrite Hd.
  - intros e d -> Hd Hp. by rewrite Hd, Hp.
Qed.

(** ** Best match *)

Lemma title_matches_spec query c :
  title_matches query c = true <-> close_match query c.
Proof.
  unfold title_matches, close_match, ci_equal, ci_contains, includes.
  rewrite !orb_true_iff, bool_decide_eq_true, !includes_chars_spec. tauto.
Qed.

(** C4.  On a non-empty ranked list the selection returns the first
    candidate whose title equals, contains or is contained by the query
    title (letter case ignored) when there is one; when there is none
    it returns the top-ranked candidate if that one has a poster
    reference and nothing otherwise.  For Alien, Aliens, Alien 3 and
    the query Alien it returns Alien. *)
Theorem bestMatch_selection (query : string) (results : list tmdb_movie) :
  results <> [] ->
  ((exists c, c ∈ results /\ close_match query c) ->
     exists before c after,
       results = before ++ c :: after /\
       bestMatch query results = Some c /\
       close_match query c /\
       forall c', c' ∈ before -> ~ close_match query c')
  /\ ((forall c, c ∈ results -> ~ close_match query c) ->
      forall top, head results = Some top ->
        (truthy_opt (poster_path top) = true -> bestMatch query results = Some top) /\
        (truthy_opt (poster_path top) = false -> bestMatch query results = None))
  /\ bestMatch "Alien"
       [movie 1 "Alien" None; movie 2 "Aliens" None; movie 3 "Alien 3" None]
     = Some (movie 1 "Alien" None).
Proof.
  intros Hne. destruct results as [|first rest]; [done|].
  split; [|split].
  - intros (c & Hc & Hm).
    unfold bestMatch.
    destruct (List.find (title_matches query) (first :: rest)) as [m|] eqn:Hf.
    + destruct (find_some_first _ _ _ Hf) as (before & after & Heq & Hpm & Hb).
      exists before, m, after. split; [done|]. split; [done|].
      split; [by apply title_matches_spec|].
      intros c' Hc' Hm'. apply title_matches_spec in Hm'.
      rewrite (Hb c' Hc') in Hm'. discriminate.
    + exfalso. apply title_matches_spec in Hm.
      rewrite (proj1 (find_none_all _ _) Hf c Hc) in Hm. discriminate.
  - intros Hnone top [= <-].
    assert (List.find (title_matches query) (first :: rest) = None) as Hf.
    { apply find_none_all. intros y Hy.
      destruct (title_matches query y) eqn:Hm; [|done].
      exfalso. apply (Hnone y Hy). by apply title_matches_spec. }
    unfold bestMatch. rewrite Hf.
    split; intros ->; done.
  - vm_compute. reflexivity.
Qed.

Lemma bestMatch_selection_witness :
  let query := "alien" in
  let results := [movie 7 "Zardoz" (Some "/z.jpg"); movie 8 "ALIENS" None] in
  results <> [] /\
  ((exists c, c ∈ results /\ close_match query c) ->
     exists before c after,
       results = before ++ c :: after /\
       bestMatch query results = Some c /\
       close_match query c /\
       forall c', c' ∈ before -> ~ close_match query c').
Proof.
  intros query results. split; [discriminate|].
  apply (bestMatch_selection query results). discriminate.
Defined.

End CacheFacts.

(* ===================================================================== *)
(** * The browser's collection and its filter pipeline *)
(* ===================================================================== *)

Module BrowserFacts.
Import Js JsNum Browser JsFacts.

Lemma truthy_string_spec (s : string) : truthy_string s = true <-> s <> "".
Proof. destruct s; simpl; split; congruence. Qed.

Lemma hasCachedPoster_false cache title year :
  Tmdb.hasCachedPoster cache title year = Some false <->
  exists e, cache !! Tmdb.getCacheKey title year = Some e /\ Tmdb.data e = None.
Proof.
  unfold Tmdb.hasCachedPoster.
  destruct (cache !! Tmdb.getCacheKey title year) as [e|].
  - destruct (Tmdb.data e) as [d|] eqn:Hd.
    + destruct (truthy_opt (Tmdb.posterPath d));
        (split; [done|]); intros (e' & [= <-] & He'); congruence.
    + split; [|done]. intros _. by exists e.
  - split; [done|]. by intros (e & ? & _).
Qed.

Lemma poster_not_missing_spec cache f m :
  poster_not_missing cache f m = true <->
  (identifier m ∉ moviesWithoutImages f) /\
  Tmdb.hasCachedPoster cache (title m) (year m) <> Some false.
Proof.
  unfold poster_not_missing.
  destruct (bool_decide (identifier m ∈ moviesWithoutImages f)) eqn:Hin.
  - apply bool_decide_eq_true in Hin. split; [done|]. by intros [? _].
  - apply bool_decide_eq_false in Hin.
    destruct (Tmdb.hasCachedPoster cache (title m) (year m)) as [[]|];
      split; try done. by intros [_ ?].
Qed.


(** ** The collection has one item per identifier *)




Lemma insert_by_rating_perm f x l : insert_by_rating f x l ≡ₚ x :: l.
Proof.
  induction l as [|y l IH]; simpl; [done|].
  destruct (negb (Qle_bool (rating_of f y) (rating_of f x))); [|done].
  rewrite IH. apply Permutation_swap.
Qed.

Lemma sort_by_rating_perm f l : sort_by_rating f l ≡ₚ l.
Proof.
  induction l as [|x l IH]; simpl; [done|].
  by rewrite insert_by_rating_perm, IH.
Qed.





End BrowserFacts.

(* ===================================================================== *)
(** * Runtime parsing *)
(* ===================================================================== *)

Module ArchiveFacts.
Import Js JsNum Archive JsFacts.

Lemma chars_str (l : list ascii) : chars (str l) = l.
Proof. apply list_ascii_of_string_of_list_ascii. Qed.

Lemma drop_while_none (p : ascii -> bool) (l : list ascii) :
  forallb (fun c => negb (p c)) l = true -> drop_while p l = l.
Proof.
  destruct l as [|c l]; simpl; [done|].
  intros H. apply andb_true_iff in H as [Hc _].
  by destruct (p c).
Qed.

Lemma forallb_rev {A} (p : A -> bool) (l : list A) :
  forallb p (rev l) = forallb p l.
Proof.
  induction l as [|a l IH]; simpl; [done|].
  rewrite forallb_app, IH. simpl. rewrite andb_true_r. apply andb_comm.
Qed.

Lemma digit_not_space (c : ascii) : is_digit c = true -> is_space c = false.
Proof.
  unfold is_digit, is_space, in_range.
  intros H. apply andb_true_iff in H as [H1 H2].
  apply N.leb_le in H1, H2.
  apply orb_false_iff. split.
  - apply andb_false_iff. right. apply N.leb_gt. lia.
  - apply N.eqb_neq. lia.
Qed.

Lemma digit_not_colon (c : ascii) : is_digit c = true -> c <> ":"%char.
Proof. intros H ->. vm_compute in H. discriminate. Qed.

Lemma digits_no_space (l : list ascii) :
  forallb is_digit l = true ->
  forallb (fun c => negb (is_space c)) l = true.
Proof.
  rewrite !forallb_forall. intros H c Hc.
  by rewrite (digit_not_space c (H c Hc)).
Qed.

Lemma trim_digits (l : list ascii) :
  forallb is_digit l = true -> trim_chars l = l.
Proof.
  intros H. unfold trim_chars, drop_while_end.
  rewrite (drop_while_none is_space l) by by apply digits_no_space.
  rewrite drop_while_none.
  - apply rev_involutive.
  - rewrite forallb_rev. by apply digits_no_space.
Qed.

Lemma Number_digits (l : list ascii) :
  forallb is_digit l = true -> Number (str l) = of_N (digits_value l).
Proof.
  intros H. unfold Number. rewrite chars_str, trim_digits by done.
  by rewrite H.
Qed.

Lemma split_go_no_sep sep cur (l : list ascii) :
  Forall (fun c => c <> sep) l ->
  split_go sep cur l = [rev cur ++ l].
Proof.
  revert cur. induction l as [|c l IH]; intros cur Hall; simpl.
  - by rewrite app_nil_r.
  - apply Forall_cons in Hall as [Hc Hall].
    rewrite bool_decide_eq_false_2 by done.
    rewrite IH by done. simpl. by rewrite <- app_assoc.
Qed.

Lemma split_go_sep sep cur (l rest : list ascii) :
  Forall (fun c => c <> sep) l ->
  split_go sep cur (l ++ sep :: rest) = (rev cur ++ l) :: split_go sep [] rest.
Proof.
  revert cur. induction l as [|c l IH]; intros cur Hall; simpl.
  - rewrite bool_decide_eq_true_2 by done. by rewrite app_nil_r.
  - apply Forall_cons in Hall as [Hc Hall].
    rewrite bool_decide_eq_false_2 by done.
    rewrite IH by done. simpl. by rewrite <- app_assoc.
Qed.

Lemma digits_no_colon (l : list ascii) :
  forallb is_digit l = true -> Forall (fun c => c <> ":"%char) l.
Proof.
  rewrite forallb_forall, Forall_forall. intros H c Hc.
  apply digit_not_colon, H. by apply list_elem_of_In.
Qed.

Lemma lt_of_N (a b : N) : lt (of_N a) (of_N b) = (a <? b)%N.
Proof.
  unfold lt, of_N, Qle_bool. simpl. rewrite !Z.mul_1_r.
  destruct (N.ltb_spec a b); [apply negb_true_iff, Z.leb_gt|
                              apply negb_false_iff, Z.leb_le]; lia.
Qed.

Lemma truthy_str_cons (c : ascii) (l : list ascii) :
  truthy_string (str (c :: l)) = true.
Proof. done. Qed.

Lemma parseRuntime_two (A B : list ascii) :
  forallb is_digit A = true -> forallb is_digit B = true ->
  parseRuntime (Some (str (A ++ ":"%char :: B)))
  = if (digits_value A <? 10)%N
    then add (of_N (digits_value A)) (div_by (of_N (digits_value B)) 60)
    else add (mul (of_N (digits_value A)) (of_N 60)) (of_N (digits_value B)).
Proof.
  intros HA HB. unfold parseRuntime.
  assert (truthy_string (str (A ++ ":"%char :: B)) = true) as ->.
  { destruct A; apply truthy_str_cons. }
  simpl negb. cbv iota.
  assert (includes (str (A ++ ":"%char :: B)) ":" = true) as ->.
  { unfold includes. rewrite chars_str. apply includes_chars_spec.
    by exists A, B. }
  unfold split. rewrite chars_str.
  rewrite split_go_sep by by apply digits_no_colon.
  rewrite split_go_no_sep by by apply digits_no_colon.
  simpl. rewrite !Number_digits by done.
  by rewrite lt_of_N.
Qed.

(** C5, as the code has it.  ["1:32:00"] is 92 minutes.  For two
    components [A:B] of decimal digits, a first component below 10 is
    read as minutes and seconds (the result is [A + B/60] minutes) and
    every other first component as hours and minutes (the result is
    [A*60 + B] minutes); so ["45:30"] is 2730 minutes and ["1:30"] is
    one and a half. *)
Theorem parseRuntime_components :
  parseRuntime (Some "1:32:00") = Num 92
  /\ (forall A B : list ascii,
        forallb is_digit A = true -> forallb is_digit B = true ->
        parseRuntime (Some (str (A ++ ":"%char :: B)))
        = if (digits_value A <? 10)%N
          then add (of_N (digits_value A)) (div_by (of_N (digits_value B)) 60)
          else add (mul (of_N (digits_value A)) (of_N 60)) (of_N (digits_value B)))
  /\ parseRuntime (Some "45:30") = Num 2730
  /\ parseRuntime (Some "1:30") = Num (3 # 2).
Proof.
  split; [vm_compute; reflexivity|].
  split; [apply parseRuntime_two|].
  split; vm_compute; reflexivity.
Qed.

Lemma parseRuntime_components_witness :
  parseRuntime (Some (str (chars "07" ++ ":"%char :: chars "45")))
  = add (of_N 7) (div_by (of_N 45) 60).
Proof.
  exact (proj1 (proj2 parseRuntime_components) (chars "07") (chars "45")
           eq_refl eq_refl).
Defined.

(** The rule of the specification (below 10: hours and minutes,
    otherwise minutes and seconds) is not the rule of [parseRuntime]:
    for ["45:30"] the specification's rule gives 45.5 minutes, the code
    2730. *)
Lemma parseRuntime_spec_rule_fails :
  ~ (forall A B : list ascii,
       forallb is_digit A = true -> forallb is_digit B = true ->
       parseRuntime (Some (str (A ++ ":"%char :: B)))
       = spec_two_components (digits_value A) (digits_value B)).
Proof.
  intros H. specialize (H (chars "45") (chars "30") eq_refl eq_refl).
  vm_compute in H. discriminate.
Qed.

End ArchiveFacts.

(* ===================================================================== *)
(** * The title normaliser *)
(* ===================================================================== *)

Module TitleFacts.
Import Js Tmdb JsFacts ArchiveFacts.


Lemma space_is_space : is_space " "%char = true.
Proof. done. Qed.

(** *** What [spaced] and [normalised] say *)

Lemma spaced_chars r l :
  spaced r l = true -> Forall (fun c => is_word c = true \/ c = " "%char) l.
Proof.
  revert r. induction l as [|c l IH]; intros r; simpl; [constructor|].
  destruct (is_space c).
  - rewrite !andb_true_iff, bool_decide_eq_true. intros [[-> _] Hl].
    constructor; [by right|by eapply IH].
  - rewrite andb_true_iff. intros [Hc Hl].
    constructor; [by left|by eapply IH].
Qed.


Lemma spaced_tail r c l :
  spaced r (c :: l) = true -> spaced (is_space c) l = true.
Proof.
  simpl. destruct (is_space c); rewrite !andb_true_iff; tauto.
Qed.


Lemma spaced_weaken r l : spaced true l = true -> spaced r l = true.
Proof.
  destruct l as [|c l]; simpl; [done|].
  destruct (is_space c); [|done].
  rewrite !andb_true_iff. intros [[_ ?] _]. discriminate.
Qed.

Lemma spaced_app_l r l1 l2 : spaced r (l1 ++ l2) = true -> spaced r l1 = true.
Proof.
  revert r. induction l1 as [|c l1 IH]; intros r; simpl; [done|].
  destruct (is_space c); rewrite !andb_true_iff; intros H;
    (split; [tauto|]); eapply IH; apply H.
Qed.

(** *** [drop_while] and [drop_while_end] *)

Lemma drop_while_all (p : ascii -> bool) (w l : list ascii) :
  forallb p w = true -> drop_while p (w ++ l) = drop_while p l.
Proof.
  induction w as [|c w IH]; simpl; [done|].
  rewrite andb_true_iff. intros [-> Hw]. by apply IH.
Qed.

Lemma drop_while_head (p : ascii -> bool) (c : ascii) (l : list ascii) :
  p c = false -> drop_while p (c :: l) = c :: l.
Proof. simpl. by intros ->. Qed.

Lemma drop_while_suffix (p : ascii -> bool) (l : list ascii) :
  exists w, l = w ++ drop_while p l /\ forallb p w = true.
Proof.
  induction l as [|c l (w & Hw & Hall)]; simpl; [by exists []|].
  destruct (p c) eqn:Hc.
  - exists (c :: w). simpl. rewrite Hc, Hall. split; [congruence|done].
  - by exists [].
Qed.

Lemma drop_while_head_false (p : ascii -> bool) (l : list ascii) c :
  head (drop_while p l) = Some c -> p c = false.
Proof.
  induction l as [|a l IH]; simpl; [done|].
  destruct (p a) eqn:Ha; [done|]. simpl. by intros [= <-].
Qed.

Lemma drop_while_elem (p : ascii -> bool) (l : list ascii) c :
  c ∈ drop_while p l -> c ∈ l.
Proof.
  destruct (drop_while_suffix p l) as (w & Hw & _).
  intros Hc. rewrite Hw. apply elem_of_app. by right.
Qed.

Lemma elem_of_rev (c : ascii) (l : list ascii) : c ∈ rev l <-> c ∈ l.
Proof. rewrite !list_elem_of_In. symmetry. apply in_rev. Qed.

Lemma last_rev_head (l : list ascii) : last (rev l) = head l.
Proof.
  destruct l as [|c l]; simpl; [done|]. apply last_snoc.
Qed.

Lemma drop_while_end_prefix (p : ascii -> bool) (l : list ascii) :
  exists w, l = drop_while_end p l ++ w /\ forallb p w = true.
Proof.
  unfold drop_while_end.
  destruct (drop_while_suffix p (rev l)) as (w & Hw & Hall).
  exists (rev w). split.
  - rewrite <- rev_app_distr, <- Hw. symmetry. apply rev_involutive.
  - by rewrite forallb_rev.
Qed.

Lemma drop_while_end_last (p : ascii -> bool) (l : list ascii) c :
  last (drop_while_end p l) = Some c -> p c = false.
Proof.
  unfold drop_while_end. rewrite last_rev_head. apply drop_while_head_false.
Qed.

Lemma drop_while_end_id (p : ascii -> bool) (l : list ascii) :
  (forall c, last l = Some c -> p c = false) -> drop_while_end p l = l.
Proof.
  intros H. unfold drop_while_end.
  assert (drop_while p (rev l) = rev l) as ->; [|apply rev_involutive].
  destruct (rev l) as [|c l'] eqn:Hr; [done|].
  apply drop_while_head, H.
  rewrite <- (rev_involutive l), Hr, last_rev_head. done.
Qed.

Lemma drop_while_id (p : ascii -> bool) (l : list ascii) :
  (forall c, head l = Some c -> p c = false) -> drop_while p l = l.
Proof.
  destruct l as [|c l]; [done|]. intros H. apply drop_while_head. by apply H.
Qed.

(** *** The three general replacements produce a normalised title *)

Lemma replace_special_chars (l : list ascii) :
  Forall (fun c => is_word c = true \/ is_space c = true) (replace_special l).
Proof.
  unfold replace_special. induction l as [|c l IH]; simpl; constructor; [|done].
  destruct (is_word c) eqn:Hw; simpl; [by left|].
  destruct (is_space c) eqn:Hs; simpl; by right.
Qed.

Lemma collapse_from_spaced r (l : list ascii) :
  Forall (fun c => is_word c = true \/ is_space c = true) l ->
  spaced r (collapse_from r l) = true.
Proof.
  intros Hall. revert r. induction Hall as [|c l Hc Hall IH]; intros r; simpl;
    [done|].
  destruct (is_space c) eqn:Hs.
  - destruct r; [apply IH|]. simpl. by rewrite IH.
  - simpl. rewrite Hs, IH. destruct Hc as [-> | Hc]; [done|congruence].
Qed.

Lemma spaced_drop_while r (l : list ascii) :
  spaced r l = true -> spaced true (drop_while is_space l) = true.
Proof.
  revert r. induction l as [|c l IH]; intros r H; simpl; [done|].
  destruct (is_space c) eqn:Hs.
  - apply spaced_tail in H. rewrite Hs in H. by eapply IH.
  - simpl in *. by rewrite Hs in *.
Qed.

Lemma trim_chars_normalised r (l : list ascii) :
  spaced r l = true -> normalised (trim_chars l) = true.
Proof.
  intros H. apply spaced_drop_while in H.
  unfold normalised, trim_chars. apply andb_true_iff. split.
  - destruct (drop_while_end_prefix is_space (drop_while is_space l))
      as (w & Hw & _).
    rewrite Hw in H. by apply spaced_app_l in H.
  - unfold ends_in_space.
    destruct (last (drop_while_end is_space (drop_while is_space l)))
      as [c|] eqn:Hlast; [|done].
    apply drop_while_end_last in Hlast. by rewrite Hlast.
Qed.

Lemma cleanTitle_chars_normalised (l : list ascii) :
  normalised (cleanTitle_chars l) = true.
Proof.
  unfold cleanTitle_chars, collapse_spaces.
  eapply trim_chars_normalised, collapse_from_spaced, replace_special_chars.
Qed.

(** *** They leave a normalised title as it is *)

Lemma normalised_inv (l : list ascii) :
  normalised l = true ->
  spaced true l = true /\ forall c, last l = Some c -> is_space c = false.
Proof.
  unfold normalised, ends_in_space. rewrite andb_true_iff, negb_true_iff.
  intros [Hs Hl]. split; [done|]. intros c Hc. by rewrite Hc in Hl.
Qed.

Lemma replace_special_id r (l : list ascii) :
  spaced r l = true -> replace_special l = l.
Proof.
  intros H. apply spaced_chars in H. unfold replace_special.
  induction H as [|c l Hc Hall IH]; simpl; [done|].
  rewrite IH. destruct Hc as [-> | ->]; done.
Qed.

Lemma collapse_from_id r (l : list ascii) :
  spaced r l = true -> collapse_from r l = l.
Proof.
  revert r. induction l as [|c l IH]; intros r; simpl; [done|].
  destruct (is_space c).
  - rewrite !andb_true_iff, bool_decide_eq_true, negb_true_iff.
    intros [[-> ->] Hl]. by rewrite IH.
  - rewrite andb_true_iff. intros [_ Hl]. by rewrite IH.
Qed.

Lemma trim_chars_id (l : list ascii) :
  normalised l = true -> trim_chars l = l.
Proof.
  intros H. apply normalised_inv in H as [Hs Hl].
  unfold trim_chars. rewrite drop_while_id.
  - by apply drop_while_end_id.
  - intros c Hc. destruct (is_space c) eqn:Hsp; [|done].
    destruct l as [|a l]; [done|]. injection Hc as Hc. subst a.
    simpl in Hs. rewrite Hsp in Hs.
    apply andb_true_iff in Hs as [Hs _]. apply andb_true_iff in Hs as [_ Hs].
    discriminate.
Qed.

(** *** The year patterns *)

Lemma strip_enclosed_year_other (open close : ascii) (l : list ascii) :
  head (drop_while is_space (rev l)) <> Some close ->
  strip_enclosed_year open close l = l.
Proof.
  unfold strip_enclosed_year.
  destruct (drop_while is_space (rev l)) as [|c [|d4 [|d3 [|d2 [|d1 [|o rest]]]]]];
    try done.
  simpl. intros Hc. rewrite bool_decide_eq_false_2; [done|congruence].
Qed.

Lemma strip_enclosed_year_absent (open close : ascii) (l : list ascii) :
  close ∉ l -> strip_enclosed_year open close l = l.
Proof.
  intros Hnotin. apply strip_enclosed_year_other. intros Hhead.
  apply Hnotin.
  assert (close ∈ drop_while is_space (rev l)) as Hin.
  { destruct (drop_while is_space (rev l)) as [|a l']; [done|].
    injection Hhead as Hhead. subst a. left. }
  apply drop_while_elem in Hin. by apply (elem_of_rev close l).
Qed.




Lemma strip_dash_year_absent (l : list ascii) :
  "-"%char ∉ l -> strip_dash_year l = l.
Proof.
  intros Hnotin. unfold strip_dash_year.
  destruct (drop_while is_space (rev l)) as [|d4 [|d3 [|d2 [|d1 rest]]]] eqn:Hd;
    try done.
  destruct (all_digits [d1; d2; d3; d4]); [|done].
  destruct (drop_while is_space rest) as [|dash rest'] eqn:Hr; [done|].
  destruct (bool_decide (dash = "-"%char)) eqn:Hdash; [|done].
  apply bool_decide_eq_true in Hdash as ->.
  exfalso. apply Hnotin. apply (elem_of_rev "-"%char l).
  apply (drop_while_elem is_space). rewrite Hd.
  do 4 right. apply (drop_while_elem is_space). rewrite Hr. left.
Qed.



Lemma spaced_absent r (l : list ascii) (c : ascii) :
  spaced r l = true -> is_word c = false -> c <> " "%char -> c ∉ l.
Proof.
  intros Hs Hw Hne Hin. apply spaced_chars in Hs.
  rewrite Forall_forall in Hs. destruct (Hs c Hin); congruence.
Qed.

(** *** The whole pipeline *)

Lemma general_replacements_id (b : list ascii) :
  normalised b = true ->
  trim_chars (collapse_spaces (replace_special b)) = b.
Proof.
  intros Hn. pose proof (normalised_inv b Hn) as [Hs Hl].
  unfold collapse_spaces.
  rewrite (replace_special_id true) by done.
  rewrite collapse_from_id by by apply spaced_weaken.
  by apply trim_chars_id.
Qed.

Lemma from_dash_id (b : list ascii) :
  normalised b = true ->
  trim_chars (collapse_spaces (replace_special (strip_dash_year b))) = b.
Proof.
  intros Hn. pose proof (normalised_inv b Hn) as [Hs Hl].
  rewrite strip_dash_year_absent by by apply (spaced_absent true).
  by apply general_replacements_id.
Qed.

Lemma from_bracket_id (b : list ascii) :
  normalised b = true ->
  trim_chars
    (collapse_spaces
       (replace_special
          (strip_dash_year (strip_enclosed_year "["%char "]"%char b)))) = b.
Proof.
  intros Hn. pose proof (normalised_inv b Hn) as [Hs Hl].
  rewrite (strip_enclosed_year_absent "["%char "]"%char)
    by by apply (spaced_absent true).
  by apply from_dash_id.
Qed.

Lemma cleanTitle_chars_id (b : list ascii) :
  normalised b = true -> cleanTitle_chars b = b.
Proof.
  intros Hn. pose proof (normalised_inv b Hn) as [Hs Hl].
  unfold cleanTitle_chars.
  rewrite (strip_enclosed_year_absent "("%char ")"%char)
    by by apply (spaced_absent true).
  by apply from_bracket_id.
Qed.





(** *** The result as words *)




























End TitleFacts.

(* ===================================================================== *)
(** * The service: invariants of the pending map *)
(* ===================================================================== *)

Module ServiceFacts.
Import Js Tmdb JsFacts CacheFacts.

Lemma elem_of_map_1 {A B} (f : A -> B) (l : list A) (x : A) :
  x ∈ l -> f x ∈ map f l.
Proof. rewrite !list_elem_of_In. apply in_map. Qed.

Lemma elem_of_map_inv {A B} (f : A -> B) (l : list A) (y : B) :
  y ∈ map f l -> exists x, x ∈ l /\ f x = y.
Proof.
  rewrite list_elem_of_In, in_map_iff. intros (x & Hx & Hin).
  exists x. by rewrite list_elem_of_In.
Qed.

(** In a list without repeated keys the key determines the element. *)
Lemma NoDup_map_inj {A B} (f : A -> B) (l : list A) (x y : A) :
  NoDup (map f l) -> x ∈ l -> y ∈ l -> f x = f y -> x = y.
Proof.
  induction l as [|a l IH]; simpl; intros Hnd Hx Hy Hf; [by inversion Hx|].
  apply NoDup_cons in Hnd as [Hnotin Hnd].
  apply elem_of_cons in Hx as [-> | Hx]; apply elem_of_cons in Hy as [-> | Hy].
  - done.
  - exfalso. apply Hnotin. rewrite Hf. by apply elem_of_map_1.
  - exfalso. apply Hnotin. rewrite <- Hf. by apply elem_of_map_1.
  - by apply IH.
Qed.

Lemma wf_init stored : wf (init stored).
Proof.
  split; simpl; try constructor.
  - by rewrite lookup_empty.
  - intros (l & Hl & _). by inversion Hl.
  - intros l Hl. by inversion Hl.
  - intros l Hl. by inversion Hl.
Qed.

Lemma wf_setApiKey k st : wf st -> wf (setApiKey k st).
Proof. intros []. by split. Qed.

Lemma wf_issue key now st : wf st -> wf (issue key now st).
Proof. intros []. by split. Qed.

Lemma no_lookup_for_free_key st k :
  wf st -> pendingRequests st !! k = None -> k ∉ map l_key (inflight st).
Proof.
  intros Hwf Hnone Hin. apply elem_of_map_inv in Hin as (l & Hl & Hk).
  assert (pendingRequests st !! k = Some (l_id l)) as Hsome.
  { apply (wf_pending st Hwf). by exists l. }
  congruence.
Qed.

Lemma wf_register l st :
  wf st ->
  pendingRequests st !! l_key l = None ->
  l_id l = nextId st ->
  getCacheKey (l_title l) (l_year l) = l_key l ->
  wf (register l st).
Proof.
  intros Hwf Hnone Hid Hkey.
  pose proof (no_lookup_for_free_key st _ Hwf Hnone) as Hfree.
  destruct Hwf as [Hkeys Hids Hpend Hfresh Hk].
  split; simpl.
  - by apply NoDup_cons.
  - apply NoDup_cons. split; [|done].
    intros Hin. apply elem_of_map_inv in Hin as (l' & Hl' & Heq).
    apply Hfresh in Hl'. lia.
  - intros k p. destruct (decide (l_key l = k)) as [<-|Hne].
    + rewrite lookup_insert_eq. split.
      * intros [= <-]. exists l. split; [left|done].
      * intros (l' & Hl' & Hk' & <-).
        apply elem_of_cons in Hl' as [-> | Hl']; [done|].
        exfalso. apply Hfree. rewrite <- Hk'. by apply elem_of_map_1.
    + rewrite lookup_insert_ne by done. rewrite Hpend. split.
      * intros (l' & Hl' & Hk' & Hp). exists l'. split; [by right|done].
      * intros (l' & Hl' & Hk' & Hp).
        apply elem_of_cons in Hl' as [-> | Hl']; [done|]. by exists l'.
  - intros l' Hl'. apply elem_of_cons in Hl' as [-> | Hl']; [lia|].
    apply Hfresh in Hl'. lia.
  - intros l' Hl'. apply elem_of_cons in Hl' as [-> | Hl']; [done|].
    by apply Hk.
Qed.

Lemma throttledFetch_frame key now st :
  let st1 := snd (throttledFetch key now st) in
  enabled st1 = enabled st /\ tmdbCache st1 = tmdbCache st /\
  pendingRequests st1 = pendingRequests st /\ inflight st1 = inflight st /\
  nextId st1 = nextId st.
Proof.
  unfold throttledFetch.
  by destruct (now - lastRequestTime st <? MIN_REQUEST_INTERVAL)%Z.
Qed.

Lemma wf_throttledFetch key now st :
  wf st -> wf (snd (throttledFetch key now st)).
Proof.
  intros Hwf. unfold throttledFetch.
  destruct (now - lastRequestTime st <? MIN_REQUEST_INTERVAL)%Z; simpl;
    [done|by apply wf_issue].
Qed.

(** The cases of [searchMovie]. *)
Lemma searchMovie_cases title year now st :
  let key := getCacheKey title year in
  let read := getFromCache (tmdbCache st) title year now in
  (enabled st = false /\ searchMovie title year now st = (Returned None, st))
  \/ (enabled st = true /\ found read = true /\
      searchMovie title year now st = (Returned (found_data read), st))
  \/ (enabled st = true /\ found read = false /\
      exists p, pendingRequests st !! key = Some p /\
                searchMovie title year now st = (Joined p, st))
  \/ (enabled st = true /\ found read = false /\
      pendingRequests st !! key = None /\
      let '(ph, st1) := throttledFetch key now st in
      let l := {| l_id := nextId st; l_key := key; l_title := title;
                  l_year := year; l_started := now; l_phase := ph |} in
      searchMovie title year now st = (Started (nextId st), register l st1)).
Proof.
  intros key read. subst key read. unfold searchMovie.
  destruct (enabled st); simpl; [|by left].
  right.
  destruct (found (getFromCache (tmdbCache st) title year now)); [by left|].
  right.
  destruct (pendingRequests st !! getCacheKey title year) as [p|];
    [left; eauto|].
  right. by destruct (throttledFetch (getCacheKey title year) now st).
Qed.

Lemma wf_searchMovie title year now st :
  wf st -> wf (snd (searchMovie title year now st)).
Proof.
  intros Hwf.
  destruct (searchMovie_cases title year now st)
    as [[_ ->]|[(_ & _ & ->)|[(_ & _ & p & _ & ->)|(_ & _ & Hnone & Hs)]]];
    try done.
  pose proof (throttledFetch_frame (getCacheKey title year) now st) as Hfr.
  pose proof (wf_throttledFetch (getCacheKey title year) now st Hwf) as Hwf1.
  destruct (throttledFetch (getCacheKey title year) now st) as [ph st1].
  simpl in Hfr, Hwf1. destruct Hfr as (_ & _ & Hp & _ & Hn).
  rewrite Hs. simpl.
  apply wf_register; simpl; [done|by rewrite Hp|by rewrite Hn|done].
Qed.

Lemma set_phase_keys p ph ls : map l_key (set_phase p ph ls) = map l_key ls.
Proof.
  unfold set_phase. rewrite map_map. apply map_ext. intros l.
  by destruct (l_id l =? p)%nat.
Qed.

Lemma set_phase_ids p ph ls : map l_id (set_phase p ph ls) = map l_id ls.
Proof.
  unfold set_phase. rewrite map_map. apply map_ext. intros l.
  by destruct (l_id l =? p)%nat.
Qed.

Lemma set_phase_elem p ph ls l' :
  l' ∈ set_phase p ph ls -> exists l, l ∈ ls /\ same_lookup l l'.
Proof.
  intros Hin. apply elem_of_map_inv in Hin as (l & Hl & <-).
  exists l. split; [done|]. by destruct (l_id l =? p)%nat.
Qed.

Lemma set_phase_elem_rev p ph ls l :
  l ∈ ls -> exists l', l' ∈ set_phase p ph ls /\ same_lookup l l'.
Proof.
  intros Hin. eexists. split; [by apply elem_of_map_1|].
  by destruct (l_id l =? p)%nat.
Qed.

Lemma find_lookup_some p ls l :
  find_lookup p ls = Some l -> l ∈ ls /\ l_id l = p.
Proof.
  intros H. apply find_some in H as [Hin Hid].
  split; [by apply list_elem_of_In|]. by apply Nat.eqb_eq.
Qed.

Lemma find_lookup_present p ls l :
  NoDup (map l_id ls) -> l ∈ ls -> l_id l = p -> find_lookup p ls = Some l.
Proof.
  intros Hnd Hin Hid.
  destruct (find_lookup p ls) as [l'|] eqn:Hf.
  - apply find_lookup_some in Hf as [Hin' Hid'].
    f_equal. apply (NoDup_map_inj l_id ls); congruence.
  - exfalso. apply list_elem_of_In in Hin.
    pose proof (find_none _ _ Hf l Hin) as Hno. simpl in Hno.
    apply Nat.eqb_neq in Hno. done.
Qed.

Lemma wf_timerFired p now st : wf st -> wf (timerFired p now st).
Proof.
  intros Hwf. unfold timerFired.
  destruct (find_lookup p (inflight st)) as [l|]; [|done].
  destruct (l_phase l); [|done].
  destruct Hwf as [Hkeys Hids Hpend Hfresh Hk].
  split; simpl.
  - by rewrite set_phase_keys.
  - by rewrite set_phase_ids.
  - intros k q. rewrite Hpend. split.
    + intros (l0 & Hl0 & Hk0 & Hq).
      destruct (set_phase_elem_rev p Sent _ _ Hl0) as (l' & Hl' & Hs).
      exists l'. destruct Hs as (? & ? & _). split; [done|]. split; congruence.
    + intros (l' & Hl' & Hk' & Hq).
      destruct (set_phase_elem _ _ _ _ Hl') as (l0 & Hl0 & Hs).
      exists l0. destruct Hs as (? & ? & _). split; [done|]. split; congruence.
  - intros l' Hl'. destruct (set_phase_elem _ _ _ _ Hl') as (l0 & Hl0 & Hs).
    destruct Hs as (-> & _). by apply Hfresh.
  - intros l' Hl'. destruct (set_phase_elem _ _ _ _ Hl') as (l0 & Hl0 & Hs).
    destruct Hs as (_ & -> & -> & -> & _). by apply Hk.
Qed.

(** What [settle] does when the lookup is there and its request is
    out. *)
Lemma settle_sent p resp now st l :
  find_lookup p (inflight st) = Some l -> l_phase l = Sent ->
  settle p resp now st =
  (Some (fetch_result (l_title l) resp),
   {| enabled := enabled st;
      tmdbCache := setCache (tmdbCache st) (l_title l) (l_year l)
                     (fetch_result (l_title l) resp) now;
      pendingRequests := delete (l_key l) (pendingRequests st);
      lastRequestTime := lastRequestTime st;
      inflight := List.filter (fun l' => negb (Nat.eqb (l_id l') p)) (inflight st);
      nextId := nextId st;
      requests := requests st |}).
Proof. intros Hf Hph. unfold settle. by rewrite Hf, Hph. Qed.

Lemma settle_cases p resp now st :
  (exists l, find_lookup p (inflight st) = Some l /\ l_phase l = Sent)
  \/ settle p resp now st = (None, st).
Proof.
  unfold settle. destruct (find_lookup p (inflight st)) as [l|]; [|by right].
  destruct (l_phase l) eqn:Hph; [by right|]. left. by exists l.
Qed.

Lemma wf_settle p resp now st : wf st -> wf (snd (settle p resp now st)).
Proof.
  intros Hwf.
  destruct (settle_cases p resp now st) as [(l & Hf & Hph)| ->]; [|done].
  rewrite (settle_sent _ _ _ _ _ Hf Hph). simpl.
  apply find_lookup_some in Hf as [Hl Hid].
  destruct Hwf as [Hkeys Hids Hpend Hfresh Hk].
  split; simpl.
  - by apply NoDup_map_filter.
  - by apply NoDup_map_filter.
  - intros k q. split.
    + intros Hlook. apply lookup_delete_Some in Hlook as [Hne Hlook].
      apply Hpend in Hlook as (l' & Hl' & Hk' & Hq).
      exists l'. split; [|done].
      apply elem_of_filter_bool. split; [done|].
      apply negb_true_iff, Nat.eqb_neq. intros Heq.
      assert (l' = l) by (apply (NoDup_map_inj l_id (inflight st)); congruence).
      congruence.
    + intros (l' & Hl' & Hk' & Hq).
      apply elem_of_filter_bool in Hl' as [Hl' Hne].
      apply negb_true_iff, Nat.eqb_neq in Hne.
      apply lookup_delete_Some. split.
      * intros Heq. apply Hne.
        assert (l' = l) by (apply (NoDup_map_inj l_key (inflight st)); congruence).
        congruence.
      * apply Hpend. by exists l'.
  - intros l' Hl'. apply elem_of_filter_bool in Hl' as [Hl' _]. by apply Hfresh.
  - intros l' Hl'. apply elem_of_filter_bool in Hl' as [Hl' _]. by apply Hk.
Qed.

Lemma wf_exec e st : wf st -> wf (exec e st).
Proof.
  destruct e; simpl.
  - apply wf_setApiKey.
  - apply wf_searchMovie.
  - apply wf_timerFired.
  - apply wf_settle.
Qed.

Lemma wf_run es st : wf st -> wf (run es st).
Proof.
  revert st. induction es as [|e es IH]; intros st Hwf; simpl; [done|].
  by apply IH, wf_exec.
Qed.

Lemma run_app es1 es2 st : run (es1 ++ es2) st = run es2 (run es1 st).
Proof. apply fold_left_app. Qed.

(** ** A pending key has no fresh cache entry

    A lookup starts on a cache miss, and nothing writes the entry of
    its key before it settles; so as long as the clock does not run
    backwards the entry stays missing or expired. *)










Lemma settle_removes st l resp now :
  wf st -> l ∈ inflight st -> l_phase l = Sent ->
  exists st',
    settle (l_id l) resp now st = (Some (fetch_result (l_title l) resp), st')
    /\ pendingRequests st' !! l_key l = None
    /\ (forall l', l' ∈ inflight st' <-> l' ∈ inflight st /\ l' <> l)
    /\ tmdbCache st' = <[l_key l := {| data := fetch_result (l_title l) resp;
                                       timestamp := now |}]> (tmdbCache st)
    /\ requests st' = requests st
    /\ enabled st' = enabled st.
Proof.
  intros Hwf Hl Hph.
  pose proof (find_lookup_present (l_id l) _ l (wf_ids st Hwf) Hl eq_refl) as Hf.
  eexists. split; [by apply settle_sent|]. simpl.
  split; [apply lookup_delete_eq|].
  split; [|by unfold setCache; rewrite (wf_key st Hwf l Hl)].
  intros l'. rewrite elem_of_filter_bool, negb_true_iff, Nat.eqb_neq.
  split; intros [Hl' Hne]; (split; [done|]).
  - congruence.
  - intros Heq. apply Hne.
    apply (NoDup_map_inj l_id (inflight st)); [apply Hwf|done..].
Qed.

(** ** A promise keeps its key *)




(** ** A fresh entry stays while its TTL lasts *)





Lemma searchMovie_cached title year now st e :
  enabled st = true ->
  tmdbCache st !! getCacheKey title year = Some e ->
  now - timestamp e < CACHE_DURATION ->
  searchMovie title year now st = (Returned (data e), st).
Proof.
  intros Hen He Hlt. unfold searchMovie. rewrite Hen. simpl.
  by rewrite (getFromCache_fresh _ _ _ _ e).
Qed.




(** ** One lookup per key *)








(** ** Errors and the cache *)

Lemma fetch_result_negative title resp :
  is_error resp \/ is_empty resp -> fetch_result title resp = None.
Proof. intros [[-> | [status ->]] | [-> | ->]]; done. Qed.

(** C1, as the code has it.  When the request of a lookup ends in a
    transport or server error, the lookup resolves to [null], and
    [null] is written to the cache under the lookup's key with the
    current time, exactly as for a successful response without
    candidates; the pending entry is cleared.  A later call for the
    same key on the enabled service returns the cached [null] without
    a request as long as the entry is within the TTL, and starts a new
    lookup once the entry has expired. *)
Theorem error_outcome_cached
    (stored : gmap string cache_entry) (es : list event)
    (l : lookup) (resp : response) (tr : Z) :
  let st := run es (init stored) in
  l ∈ inflight st -> l_phase l = Sent ->
  is_error resp \/ is_empty resp ->
  exists st',
    settle (l_id l) resp tr st = (Some None, st')
    /\ tmdbCache st' !! l_key l = Some {| data := None; timestamp := tr |}
    /\ pendingRequests st' !! l_key l = None
    /\ requests st' = requests st
    /\ forall title year t2,
         getCacheKey title year = l_key l -> enabled st' = true ->
         (t2 - tr < CACHE_DURATION ->
            searchMovie title year t2 st' = (Returned None, st'))
         /\ (CACHE_DURATION <= t2 - tr ->
               fst (searchMovie title year t2 st') = Started (nextId st')).
Proof.
  intros st Hl Hph Hresp.
  assert (wf st) as Hwf by apply wf_run, wf_init.
  destruct (settle_removes st l resp tr Hwf Hl Hph)
    as (st' & Hs & Hp & _ & Hcache & Hr & _).
  rewrite (fetch_result_negative _ _ Hresp) in Hs, Hcache.
  assert (tmdbCache st' !! l_key l = Some {| data := None; timestamp := tr |})
    as He by (rewrite Hcache; apply lookup_insert_eq).
  exists st'. split; [done|]. split; [done|]. split; [done|]. split; [done|].
  intros title year t2 Hkey Hen. rewrite <- Hkey in He, Hp. split.
  - intros Hlt.
    by apply (searchMovie_cached title year t2 st'
                {| data := None; timestamp := tr |}).
  - intros Hge.
    destruct (searchMovie_cases title year t2 st')
      as [[? _]|[(_ & Hfound & _)|[(_ & _ & q & Hq & _)|(_ & _ & _ & Hs')]]].
    + congruence.
    + rewrite (getFromCache_expired _ _ _ _ _ He) in Hfound by done.
      discriminate.
    + congruence.
    + destruct (throttledFetch (getCacheKey title year) t2 st').
      by rewrite Hs'.
Qed.

Lemma alien_lookup_inflight :
  alien_lookup ∈ inflight (run [ESetApiKey (Some "key");
                                ESearch "Alien" None 1000] (init ∅)).
Proof. vm_compute. left. Qed.

Lemma error_outcome_cached_witness :
  let st := run [ESetApiKey (Some "key"); ESearch "Alien" None 1000] (init ∅) in
  exists st',
    settle 0 (HttpError 500) 1200 st = (Some None, st')
    /\ tmdbCache st' !! "alien-unknown"
       = Some {| data := None; timestamp := 1200 |}.
Proof.
  intros st.
  destruct (error_outcome_cached ∅
              [ESetApiKey (Some "key"); ESearch "Alien" None 1000]
              alien_lookup (HttpError 500) 1200
              alien_lookup_inflight eq_refl
              (or_introl (or_intror (ex_intro _ 500 eq_refl))))
    as (st' & Hs & He & _).
  exists st'. split; [exact Hs|exact He].
Defined.

(** An error outcome is written to the cache and answers the next
    call: after a response with status 500 the entry of the key has
    changed, and a call one second later returns the cached [null]
    instead of starting a lookup. *)
Lemma error_not_cached_fails :
  ~ (forall (stored : gmap string cache_entry) (es : list event)
            (l : lookup) (status tr t2 : Z),
       let st := run es (init stored) in
       let st' := snd (settle (l_id l) (HttpError status) tr st) in
       l ∈ inflight st -> l_phase l = Sent -> enabled st = true ->
       tr <= t2 ->
       tmdbCache st' !! l_key l = tmdbCache st !! l_key l
       /\ exists p, fst (searchMovie (l_title l) (l_year l) t2 st') = Started p).
Proof.
  intros H.
  destruct (H ∅ [ESetApiKey (Some "key"); ESearch "Alien" None 1000]
              alien_lookup 500 1200 2200 alien_lookup_inflight eq_refl
              eq_refl) as [_ [p Hp]]; [lia|].
  vm_compute in Hp. discriminate.
Qed.

(** ** The rate limiter *)

(** One caller alone is held until the interval since the last request
    has passed. *)
Lemma throttledFetch_due key now st :
  match fst (throttledFetch key now st) with
  | Sent => MIN_REQUEST_INTERVAL <= now - lastRequestTime st
  | Throttled due => due = lastRequestTime st + MIN_REQUEST_INTERVAL
  end.
Proof.
  unfold throttledFetch.
  destruct (Z.ltb_spec (now - lastRequestTime st) MIN_REQUEST_INTERVAL); simpl;
    lia.
Qed.

(** C6 does not hold of [throttledFetch].  Three lookups for distinct
    keys are issued in the same millisecond, 1000.  The first request
    goes out at once.  The second and the third caller both read the
    same [lastRequestTime] and are both suspended until 1100; their
    timers fire then, and both requests go out at 1100, no time
    apart. *)
Theorem burst_not_spaced :
  let burst := [ESetApiKey (Some "key");
                ESearch "A" None 1000;
                ESearch "B" None 1000;
                ESearch "C" None 1000] in
  let timers := [ETimer 1 1100; ETimer 2 1100] in
  timed_from 0 (burst ++ timers)
  /\ map (fun l => (l_id l, l_phase l)) (inflight (run burst (init ∅)))
     = [(2%nat, Throttled 1100); (1%nat, Throttled 1100); (0%nat, Sent)]
  /\ requests (run (burst ++ timers) (init ∅))
     = [("c-unknown", 1100); ("b-unknown", 1100); ("a-unknown", 1000)]
  /\ ~ well_spaced (requests (run (burst ++ timers) (init ∅))).
Proof.
  intros burst timers.
  split; [simpl; lia|].
  split; [vm_compute; reflexivity|].
  assert (requests (run (burst ++ timers) (init ∅))
          = [("c-unknown", 1100); ("b-unknown", 1100); ("a-unknown", 1000)])
    as Hreq by (vm_compute; reflexivity).
  split; [exact Hreq|].
  rewrite Hreq. simpl. unfold MIN_REQUEST_INTERVAL. lia.
Qed.

End ServiceFacts.


(* ===================================================================== *)
(** * Cache keys *)
(* ===================================================================== *)

Module KeyFacts.
Import Js Tmdb Keys JsFacts ArchiveFacts TitleFacts CacheFacts.

Lemma str_chars (s : string) : str (chars s) = s.
Proof. apply string_of_list_ascii_of_string. Qed.

Lemma chars_app (a b : string) : chars (a +:+ b) = chars a ++ chars b.
Proof. induction a as [|c a IH]; simpl; [done|]. by rewrite IH. Qed.

Lemma chars_inj (a b : string) : chars a = chars b -> a = b.
Proof. intros H. by rewrite <- (str_chars a), <- (str_chars b), H. Qed.

Lemma lower_char_idem (c : ascii) : lower_char (lower_char c) = lower_char c.
Proof. destruct c as [[] [] [] [] [] [] [] []]; vm_compute; reflexivity. Qed.

Lemma lower_char_space (c : ascii) : is_space (lower_char c) = is_space c.
Proof. destruct c as [[] [] [] [] [] [] [] []]; vm_compute; reflexivity. Qed.

Lemma toLowerCase_idem (s : string) : toLowerCase (toLowerCase s) = toLowerCase s.
Proof.
  unfold toLowerCase. rewrite chars_str, map_map. f_equal.
  apply map_ext. intros c. apply lower_char_idem.
Qed.

Lemma forallb_map_lower_space (w : list ascii) :
  forallb is_space (map lower_char w) = forallb is_space w.
Proof.
  induction w as [|c w IH]; simpl; [done|]. by rewrite lower_char_space, IH.
Qed.

Lemma drop_while_end_all (p : ascii -> bool) (l w : list ascii) :
  forallb p w = true -> drop_while_end p (l ++ w) = drop_while_end p l.
Proof.
  intros Hw. unfold drop_while_end. rewrite rev_app_distr.
  rewrite drop_while_all; [done|]. by rewrite forallb_rev.
Qed.

Lemma drop_while_only (p : ascii -> bool) (w : list ascii) :
  forallb p w = true -> drop_while p w = [].
Proof.
  intros Hw. rewrite <- (app_nil_r w). by rewrite drop_while_all.
Qed.

Lemma trim_chars_pad (w1 l w2 : list ascii) :
  forallb is_space w1 = true -> forallb is_space w2 = true ->
  trim_chars (w1 ++ l ++ w2) = trim_chars l.
Proof.
  intros Hw1 Hw2. unfold trim_chars. rewrite drop_while_all by done.
  induction l as [|c l IH]; simpl.
  - by rewrite drop_while_only.
  - destruct (is_space c); [done|].
    by apply (drop_while_end_all is_space (c :: l) w2).
Qed.

Lemma year_or_unknown_zero : year_or_unknown (Some 0) = year_or_unknown None.
Proof. done. Qed.

(** X1.  The cache key does not depend on the letter case of the title
    nor on white space around it, and the year 0 counts as no year: an
    entry written under one spelling is the entry read under the
    other. *)
Theorem getCacheKey_spelling
    (title : string) (year : option Z) (w1 w2 : list ascii) :
  forallb is_space w1 = true -> forallb is_space w2 = true ->
  getCacheKey (str (w1 ++ chars title ++ w2)) year = getCacheKey title year
  /\ getCacheKey (toLowerCase title) year = getCacheKey title year
  /\ getCacheKey title (Some 0) = getCacheKey title None
  /\ forall cache d t now,
       now - t < CACHE_DURATION ->
       getFromCache (setCache cache (str (w1 ++ chars title ++ w2)) year d t)
                    (toLowerCase title) year now
       = {| found := true; found_data := d |}.
Proof.
  intros Hw1 Hw2.
  assert (getCacheKey (str (w1 ++ chars title ++ w2)) year
          = getCacheKey title year) as Hpad.
  { unfold getCacheKey, trim, toLowerCase. rewrite !chars_str.
    rewrite !map_app. rewrite trim_chars_pad; [done|..];
      by rewrite forallb_map_lower_space. }
  assert (getCacheKey (toLowerCase title) year = getCacheKey title year) as Hlow.
  { unfold getCacheKey. by rewrite toLowerCase_idem. }
  split; [done|]. split; [done|]. split; [done|].
  intros cache d t now Hlt.
  apply (getFromCache_fresh _ _ _ _ {| data := d; timestamp := t |}); [|done].
  unfold setCache. rewrite Hpad, Hlow. apply lookup_insert_eq.
Qed.

Lemma getCacheKey_spelling_witness :
  getCacheKey (str (chars "  " ++ chars "Alien" ++ chars " ")) (Some 1979)
  = getCacheKey "Alien" (Some 1979).
Proof.
  exact (proj1 (getCacheKey_spelling "Alien" (Some 1979) (chars "  ") (chars " ")
                  eq_refl eq_refl)).
Defined.

(** *** Decimal numerals have no dash *)

Lemma pretty_N_char_digit (x : N) : is_digit (pretty_N_char x) = true.
Proof.
  unfold pretty_N_char. by repeat case_match.
Qed.

Lemma pretty_N_go_digits (x : N) (s : string) :
  forallb is_digit (chars s) = true ->
  forallb is_digit (chars (pretty_N_go x s)) = true.
Proof.
  revert s. induction (N.lt_wf_0 x) as [x _ IH]; intros s Hs.
  assert (x = 0 \/ 0 < x)%N as [-> | Hpos] by lia.
  - by rewrite pretty_N_go_0.
  - rewrite pretty_N_go_step by done. apply IH.
    + by apply N.div_lt.
    + simpl. by rewrite pretty_N_char_digit, Hs.
Qed.

Lemma pretty_nonneg_digits (y : Z) :
  0 <= y -> forallb is_digit (chars (pretty y)) = true.
Proof.
  intros Hy. destruct y as [|p|p]; [done| |lia].
  unfold pretty, pretty_Z, pretty, pretty_positive, pretty, pretty_N.
  case_decide; [done|]. by apply pretty_N_go_digits.
Qed.

Lemma year_or_unknown_no_dash (year : option Z) :
  plain_year year -> "-"%char ∉ chars (year_or_unknown year).
Proof.
  intros Hy Hin.
  assert ("-"%char ∉ chars "unknown") as Hunk.
  { intros H. vm_compute in H. repeat (apply elem_of_cons in H as [H|H];
      [discriminate|]). by inversion H. }
  destruct year as [y|]; simpl in *; [|done].
  case_bool_decide; [done|].
  pose proof (pretty_nonneg_digits y Hy) as Hd.
  rewrite forallb_forall in Hd.
  apply list_elem_of_In in Hin. specialize (Hd _ Hin). discriminate.
Qed.

Lemma split_at_last (d : ascii) (l1 l2 r1 r2 : list ascii) :
  d ∉ r1 -> d ∉ r2 -> l1 ++ d :: r1 = l2 ++ d :: r2 -> l1 = l2 /\ r1 = r2.
Proof.
  revert l2. induction l1 as [|a l1 IH]; intros l2 H1 H2 Heq.
  - destruct l2 as [|b l2]; simpl in Heq.
    + by injection Heq as ->.
    + injection Heq as <- ->. exfalso. apply H1.
      apply elem_of_app. right. left.
  - destruct l2 as [|b l2]; simpl in Heq.
    + injection Heq as -> <-. exfalso. apply H2.
      apply elem_of_app. right. left.
    + injection Heq as -> Heq. destruct (IH l2 H1 H2 Heq) as [-> ->]. done.
Qed.

Lemma year_or_unknown_inj (y1 y2 : option Z) :
  year_or_unknown y1 = year_or_unknown y2 ->
  plain_year y1 -> plain_year y2 ->
  y1 = y2 \/ (year_or_unknown y1 = "unknown" /\ year_or_unknown y2 = "unknown").
Proof.
  intros Heq Hp1 Hp2.
  assert (forall y, 0 <= y -> pretty y <> "unknown") as Hne.
  { intros y Hy Hu. pose proof (pretty_nonneg_digits y Hy) as Hd.
    rewrite Hu in Hd. vm_compute in Hd. discriminate. }
  destruct y1 as [a|], y2 as [b|]; simpl in *; repeat case_bool_decide;
    subst; try (by right); try (by left).
  all: try (left; f_equal; by apply (inj pretty)).
  all: exfalso; eapply Hne;
    [|first [eassumption | symmetry; eassumption]]; done.
Qed.

(** X2.  For years that are missing or not negative the cache key
    determines the lower-cased, trimmed title and the year: two lookups
    share a cache entry (and a pending request) only if they agree on
    both, a year of 0 counting as missing. *)
Theorem getCacheKey_injective
    (title1 title2 : string) (year1 year2 : option Z) :
  plain_year year1 -> plain_year year2 ->
  getCacheKey title1 year1 = getCacheKey title2 year2 ->
  trim (toLowerCase title1) = trim (toLowerCase title2)
  /\ (year1 = year2 \/
      (year_or_unknown year1 = "unknown" /\ year_or_unknown year2 = "unknown")).
Proof.
  intros Hp1 Hp2 Hkey. unfold getCacheKey in Hkey.
  apply (f_equal chars) in Hkey. rewrite !chars_app in Hkey. simpl in Hkey.
  apply split_at_last in Hkey as [Ht Hy];
    [|by apply year_or_unknown_no_dash..].
  split; [by apply chars_inj|].
  apply year_or_unknown_inj; [by apply chars_inj|done..].
Qed.

Lemma getCacheKey_injective_witness :
  trim (toLowerCase " ALIEN") = trim (toLowerCase "alien ")
  /\ (Some 1979 = Some 1979 \/
      (year_or_unknown (Some 1979) = "unknown" /\
       year_or_unknown (Some 1979) = "unknown")).
Proof.
  apply (getCacheKey_injective " ALIEN" "alien " (Some 1979) (Some 1979)).
  - simpl. lia.
  - simpl. lia.
  - vm_compute. reflexivity.
Defined.

(** X3.  No title and year give the key ["genres"], under which
    [getGenres] keeps the genre list in the same map: a movie entry and
    the genre list never overwrite each other. *)
Theorem getCacheKey_not_genres (title : string) (year : option Z) :
  getCacheKey title year <> Keys.GENRES_KEY.
Proof.
  intros Hkey. apply (f_equal chars) in Hkey.
  unfold getCacheKey in Hkey. rewrite !chars_app in Hkey.
  assert ("-"%char ∈ chars Keys.GENRES_KEY) as Hin.
  { rewrite <- Hkey. apply elem_of_app. right. apply elem_of_app. left. left. }
  vm_compute in Hin.
  repeat (apply elem_of_cons in Hin as [Hin|Hin]; [discriminate|]).
  by inversion Hin.
Qed.

End KeyFacts.

(* ===================================================================== *)
(** * More on titles, matches and stale entries *)
(* ===================================================================== *)

Module MatchFacts.
Import Js Tmdb Browser Samples JsFacts ArchiveFacts TitleFacts CacheFacts
       BrowserFacts KeyFacts.

(** X4.  Cleaning a cleaned title changes nothing. *)
Theorem cleanTitle_idempotent (title : string) :
  cleanTitle (cleanTitle title) = cleanTitle title.
Proof.
  unfold cleanTitle. rewrite chars_str.
  by rewrite cleanTitle_chars_id by apply cleanTitle_chars_normalised.
Qed.

Lemma strip_enclosed_year_elem (open close c : ascii) (l : list ascii) :
  c ∈ strip_enclosed_year open close l -> c ∈ l.
Proof.
  unfold strip_enclosed_year.
  destruct (drop_while is_space (rev l))
    as [|x [|d4 [|d3 [|d2 [|d1 [|o rest]]]]]] eqn:Hd; try done.
  destruct (_ && _ && _); [|done].
  intros Hc. apply (proj1 (elem_of_rev c _)) in Hc. apply drop_while_elem in Hc.
  apply (proj1 (elem_of_rev c l)). apply (drop_while_elem is_space). rewrite Hd.
  by do 6 right.
Qed.

Lemma strip_dash_year_elem (c : ascii) (l : list ascii) :
  c ∈ strip_dash_year l -> c ∈ l.
Proof.
  unfold strip_dash_year.
  destruct (drop_while is_space (rev l)) as [|d4 [|d3 [|d2 [|d1 rest]]]] eqn:Hd;
    try done.
  destruct (all_digits _); [|done].
  destruct (drop_while is_space rest) as [|dash rest'] eqn:Hr; [done|].
  destruct (bool_decide _); [|done].
  intros Hc. apply (proj1 (elem_of_rev c _)) in Hc. apply drop_while_elem in Hc.
  apply (proj1 (elem_of_rev c l)). apply (drop_while_elem is_space). rewrite Hd.
  do 4 right. apply (drop_while_elem is_space). rewrite Hr. by right.
Qed.

Lemma collapse_from_spaces r (l : list ascii) :
  forallb is_space l = true -> forallb is_space (collapse_from r l) = true.
Proof.
  revert r. induction l as [|c l IH]; intros r; simpl; [done|].
  rewrite andb_true_iff. intros [-> Hl].
  destruct r; simpl; by rewrite IH.
Qed.

Lemma trim_chars_spaces (l : list ascii) :
  forallb is_space l = true -> trim_chars l = [].
Proof. intros H. unfold trim_chars. by rewrite drop_while_only. Qed.

Lemma cleanTitle_no_word (l : list ascii) :
  forallb (fun c => negb (is_word c)) l = true -> cleanTitle_chars l = [].
Proof.
  intros Hl. unfold cleanTitle_chars, collapse_spaces.
  apply trim_chars_spaces, collapse_from_spaces.
  unfold replace_special. rewrite forallb_forall. intros c Hc.
  apply in_map_iff in Hc as (x & <- & Hx).
  apply list_elem_of_In, strip_dash_year_elem, strip_enclosed_year_elem,
    strip_enclosed_year_elem, list_elem_of_In in Hx.
  rewrite forallb_forall in Hl. specialize (Hl x Hx).
  apply negb_true_iff in Hl. rewrite Hl. simpl.
  by destruct (is_space x) eqn:Hs.
Qed.

Lemma includes_empty (s : string) : includes s "" = true.
Proof. unfold includes. simpl. by destruct (chars s). Qed.

(** X5.  A title without a letter, digit or underscore is cleaned to the
    empty string; and for a title that is cleaned to the empty string
    (["(1963)"] is another) every candidate counts as a match, so the
    lookup resolves to the top-ranked candidate whatever its title and
    whether or not it has a poster. *)
Theorem empty_query_takes_first :
  (forall title : string,
     forallb (fun c => negb (is_word c)) (chars title) = true ->
     cleanTitle title = "")
  /\ (forall (title : string) (first : tmdb_movie) (rest : list tmdb_movie),
        cleanTitle title = "" ->
        fetch_result title (HttpOk (Some (first :: rest)))
        = Some (to_result first)).
Proof.
  split.
  - intros title H. unfold cleanTitle. by rewrite cleanTitle_no_word.
  - intros title first rest Hclean. unfold fetch_result, bestMatch.
    rewrite Hclean. simpl.
    assert (title_matches "" first = true) as ->; [|done].
    unfold title_matches.
    change (toLowerCase "") with "". rewrite includes_empty.
    by rewrite orb_true_r.
Qed.

Lemma empty_query_takes_first_witness :
  cleanTitle "?!" = ""
  /\ fetch_result "(1963)" (HttpOk (Some [Tmdb.movie 9 "Zardoz" None]))
     = Some (to_result (Tmdb.movie 9 "Zardoz" None)).
Proof.
  split.
  - exact (proj1 empty_query_takes_first "?!" eq_refl).
  - exact (proj2 empty_query_takes_first "(1963)" (Tmdb.movie 9 "Zardoz" None) []
             eq_refl).
Defined.

(** X6.  A lookup resolves to a record only on a successful response
    with candidates, and the record is the projection of one of them:
    either a candidate whose title matches the cleaned query, or the
    top-ranked candidate when it has a poster. *)
Theorem fetch_result_from_candidates
    (title : string) (resp : response) (r : match_result) :
  fetch_result title resp = Some r ->
  exists results c,
    resp = HttpOk (Some results) /\ c ∈ results /\ r = to_result c /\
    (close_match (cleanTitle title) c \/
     (head results = Some c /\ truthy_opt (poster_path c) = true)).
Proof.
  destruct resp as [|status|[results|]]; simpl; try done.
  intros Hr. apply fmap_Some in Hr as (c & Hbest & ->).
  exists results, c. split; [done|].
  unfold bestMatch in Hbest. destruct results as [|first rest]; [done|].
  destruct (List.find (title_matches (cleanTitle title)) (first :: rest))
    as [m|] eqn:Hf.
  - injection Hbest as ->.
    destruct (find_some_first _ _ _ Hf) as (before & after & Heq & Hm & _).
    split; [rewrite Heq; apply elem_of_app; right; left|].
    split; [done|]. left. by apply title_matches_spec.
  - destruct (truthy_opt (poster_path first)) eqn:Hp; [|done].
    injection Hbest as <-. split; [left|]. split; [done|]. by right.
Qed.

Lemma fetch_result_from_candidates_witness :
  exists results c,
    HttpOk (Some [alien]) = HttpOk (Some results) /\ c ∈ results /\
    to_result alien = to_result c /\
    (close_match (cleanTitle "Alien (1979)") c \/
     (head results = Some c /\ truthy_opt (poster_path c) = true)).
Proof.
  apply (fetch_result_from_candidates "Alien (1979)" (HttpOk (Some [alien]))).
  vm_compute. reflexivity.
Defined.

(** The callback of [filteredByRuntime] on a cache that holds an
    expired [null] for the item. *)
Lemma expired_null_callback
    (cache : gmap string cache_entry) (e : cache_entry)
    (f : filters) (movies : list movie) (m : movie) (now : Z) :
  cache !! getCacheKey (title m) (year m) = Some e ->
  data e = None ->
  CACHE_DURATION <= now - timestamp e ->
  activeSearch f = "" -> tmdbApiKey f <> "" ->
  found (getFromCache cache (title m) (year m) now) = false
  /\ hasCachedPoster cache (title m) (year m) = Some false
  /\ (m ∉ filteredByRuntime cache f movies).
Proof.
  intros He Hd Hold Hs Hk.
  assert (hasCachedPoster cache (title m) (year m) = Some false) as Hp.
  { apply hasCachedPoster_false. eauto. }
  split; [by rewrite (getFromCache_expired _ _ _ _ e)|]. split; [done|].
  unfold filteredByRuntime. rewrite Hs. simpl.
  apply truthy_string_spec in Hk. rewrite Hk.
  rewrite elem_of_filter_bool, poster_not_missing_spec. tauto.
Qed.

End MatchFacts.

(* ===================================================================== *)
(** * The persisted cache and its debounced write *)
(* ===================================================================== *)

Module StorageFacts.
Import Js Tmdb Storage JsFacts CacheFacts.


Lemma saver_run_snoc (es : list saver_event) (e : saver_event) :
  saver_run (es ++ [e]) = saver_step (saver_run es) e.
Proof. unfold saver_run. by rewrite fold_left_app. Qed.

(** Every timer that is set is the one [saveTimeout] names. *)
Lemma saver_timers_named (es : list saver_event) :
  forall t, t ∈ timers (saver_run es) -> saveTimeout (saver_run es) = Some (fst t).
Proof.
  induction es as [|e es IH] using rev_ind.
  - intros t Ht. by inversion Ht.
  - rewrite saver_run_snoc.
    set (s := saver_run es) in *.
    destruct e as [now|id]; simpl.
    + intros t Ht. apply elem_of_cons in Ht as [-> | Ht]; [done|].
      exfalso. destruct (saveTimeout s) as [id|] eqn:Hs.
      * unfold clearTimeout in Ht. apply elem_of_filter_bool in Ht as [Ht Hne].
        apply IH in Ht. injection Ht as ->.
        by rewrite Nat.eqb_refl in Hne.
      * apply IH in Ht. discriminate.
    + intros t Ht. unfold clearTimeout in Ht.
      apply elem_of_filter_bool in Ht as [Ht _]. by apply IH.
Qed.

Lemma clearTimeout_named (id : nat) (ts : list (nat * Z)) :
  (forall t, t ∈ ts -> fst t = id) -> clearTimeout id ts = [].
Proof.
  induction ts as [|t ts IH]; simpl; intros H; [done|].
  rewrite (H t) by left. rewrite Nat.eqb_refl. simpl.
  apply IH. intros t' Ht'. apply H. by right.
Qed.

(** X9.  Whatever writes and timer runs came before, after a
    [debouncedSave] at time [now] exactly one timer is set, due 2000 ms
    after [now]: the timers of earlier writes that have not fired are
    cancelled.  So a burst of writes is followed by one write to the
    storage, and at no time is more than one timer set. *)
Theorem debounce_one_timer (es : list saver_event) (now : Z) :
  timers (debouncedSave now (saver_run es))
  = [(nextTimer (saver_run es), now + 2000)]
  /\ (length (timers (saver_run es)) <= 1)%nat.
Proof.
  assert (forall es now,
            timers (debouncedSave now (saver_run es))
            = [(nextTimer (saver_run es), now + 2000)]) as Hone.
  { clear. intros es now. unfold debouncedSave. simpl. f_equal.
    pose proof (saver_timers_named es) as Hn.
    destruct (saveTimeout (saver_run es)) as [id|] eqn:Hs.
    - apply clearTimeout_named. intros t Ht. apply Hn in Ht. congruence.
    - destruct (timers (saver_run es)) as [|t ts]; [done|].
      specialize (Hn t). discriminate Hn. left. }
  split; [apply Hone|].
  clear now. induction es as [|e es IH] using rev_ind; [simpl; lia|].
  rewrite saver_run_snoc. destruct e as [now|id].
  - change (saver_step (saver_run es) (Write now))
      with (debouncedSave now (saver_run es)).
    rewrite Hone. simpl. lia.
  - simpl. unfold clearTimeout.
    etransitivity; [apply filter_length_le|exact IH].
Qed.

End StorageFacts.

(* ===================================================================== *)
(** * The rate limiter without overlapping callers *)
(* ===================================================================== *)

Module PacingFacts.
Import Js Tmdb Pacing JsFacts CacheFacts ServiceFacts.

Lemma paced_inv_init stored : paced_inv (init stored).
Proof.
  split; simpl; try done.
  - intros l due Hl. by inversion Hl.
  - intros l l' due due' Hl. by inversion Hl.
Qed.

Lemma paced_inv_search title year now st :
  none_throttled st -> paced_inv st ->
  paced_inv (snd (searchMovie title year now st)).
Proof.
  intros Hnone [Hsp Hlast Hdue Hone].
  destruct (searchMovie_cases title year now st)
    as [[_ ->]|[(_ & _ & ->)|[(_ & _ & p & _ & ->)|(_ & _ & _ & Hs)]]];
    try by split.
  unfold throttledFetch in Hs.
  destruct (Z.ltb_spec (now - lastRequestTime st) MIN_REQUEST_INTERVAL)
    as [Hlt|Hge]; rewrite Hs; simpl.
  - split; simpl; try done.
    + intros l due Hl Hph. apply elem_of_cons in Hl as [-> | Hl].
      * simpl in Hph. injection Hph as <-. lia.
      * rewrite (Hnone l Hl) in Hph. discriminate.
    + intros l l' due due' Hl Hl' Hph Hph'.
      apply elem_of_cons in Hl as [-> | Hl];
        [|rewrite (Hnone l Hl) in Hph; discriminate].
      apply elem_of_cons in Hl' as [-> | Hl']; [done|].
      rewrite (Hnone l' Hl') in Hph'. discriminate.
  - split; simpl.
    + split; [|done]. destruct (requests st) as [|[k t] rest] eqn:Hr; [done|].
      rewrite <- (Hlast k t rest eq_refl). lia.
    + by intros k t rest [= _ <- _].
    + intros l due Hl Hph. apply elem_of_cons in Hl as [-> | Hl]; [done|].
      rewrite (Hnone l Hl) in Hph. discriminate.
    + intros l l' due due' Hl Hl' Hph Hph'.
      apply elem_of_cons in Hl as [-> | Hl]; [done|].
      rewrite (Hnone l Hl) in Hph. discriminate.
Qed.

Lemma paced_inv_timer p now st :
  admissible (ETimer p now) st -> paced_inv st ->
  paced_inv (timerFired p now st).
Proof.
  intros Hadm [Hsp Hlast Hdue Hone]. unfold timerFired.
  destruct (find_lookup p (inflight st)) as [l|] eqn:Hf; [|by split].
  destruct (l_phase l) as [due|] eqn:Hph; [|by split].
  apply find_lookup_some in Hf as [Hl Hid].
  pose proof (Hadm l due Hl Hid Hph) as Hnow.
  pose proof (Hdue l due Hl Hph) as Hd.
  assert (forall l', l' ∈ set_phase p Sent (inflight st) -> l_phase l' = Sent)
    as Hsent.
  { intros l' Hl'. apply elem_of_map_inv in Hl' as (l0 & Hl0 & <-).
    destruct (l_id l0 =? p)%nat eqn:Hp0; [done|].
    destruct (l_phase l0) as [due0|] eqn:Hph0; [|done].
    apply Nat.eqb_neq in Hp0. exfalso. apply Hp0.
    rewrite <- Hid. by apply (Hone l l0 due due0). }
  split; simpl.
  - split; [|done]. destruct (requests st) as [|[k t] rest] eqn:Hr; [done|].
    rewrite <- (Hlast k t rest eq_refl). lia.
  - by intros k t rest [= _ <- _].
  - intros l' due' Hl' Hph'. rewrite (Hsent l' Hl') in Hph'. discriminate.
  - intros l1 l2 d1 d2 Hl1 _ Hph1. rewrite (Hsent l1 Hl1) in Hph1. discriminate.
Qed.

Lemma paced_inv_settle p resp now st :
  paced_inv st -> paced_inv (snd (settle p resp now st)).
Proof.
  intros [Hsp Hlast Hdue Hone].
  destruct (settle_cases p resp now st) as [(l & Hf & Hph)| ->]; [|by split].
  rewrite (settle_sent _ _ _ _ _ Hf Hph). split; simpl; try done.
  - intros l' due Hl'. apply elem_of_filter_bool in Hl' as [Hl' _]. by apply Hdue.
  - intros l1 l2 d1 d2 Hl1 Hl2.
    apply elem_of_filter_bool in Hl1 as [Hl1 _].
    apply elem_of_filter_bool in Hl2 as [Hl2 _]. by apply Hone.
Qed.

Lemma paced_inv_run es st :
  paced es st -> paced_inv st -> paced_inv (run es st).
Proof.
  revert st. induction es as [|e es IH]; intros st Hp Hinv; simpl; [done|].
  destruct Hp as [Hadm Hp]. apply IH; [done|].
  destruct e as [k|title year now|p now|p resp now]; simpl in *.
  - destruct Hinv. by split.
  - by apply paced_inv_search.
  - by apply paced_inv_timer.
  - by apply paced_inv_settle.
Qed.

(** X10.  When callers do not overlap in the throttle (a search arrives
    only while no lookup is waiting for its timer, and a timer fires no
    earlier than it is due), consecutive outbound requests are at least
    [MIN_REQUEST_INTERVAL] apart, and [lastRequestTime] is the time of
    the latest request. *)
Theorem paced_requests_spaced
    (stored : gmap string cache_entry) (es : list event) :
  paced es (init stored) ->
  well_spaced (requests (run es (init stored)))
  /\ forall k t rest,
       requests (run es (init stored)) = (k, t) :: rest ->
       lastRequestTime (run es (init stored)) = t.
Proof.
  intros Hp.
  destruct (paced_inv_run es (init stored) Hp (paced_inv_init stored))
    as [Hsp Hlast _ _].
  by split.
Qed.

Lemma paced_requests_spaced_witness :
  let es := [ESetApiKey (Some "key");
             ESearch "A" None 1000;
             ESearch "B" None 1040;
             ETimer 1 1100;
             ESearch "C" None 1100;
             ETimer 2 1205] in
  requests (run es (init ∅))
  = [("c-unknown", 1205); ("b-unknown", 1100); ("a-unknown", 1000)]
  /\ well_spaced (requests (run es (init ∅))).
Proof.
  intros es. split; [vm_compute; reflexivity|].
  refine (proj1 (paced_requests_spaced ∅ es _)).
  simpl. unfold none_throttled.
  repeat split; try done.
  - intros l Hl. vm_compute in Hl. by inversion Hl.
  - intros l Hl. vm_compute in Hl.
    apply elem_of_cons in Hl as [-> | Hl]; [done|by inversion Hl].
  - intros l due Hl Hid Hph. vm_compute in Hl.
    repeat (apply elem_of_cons in Hl as [-> | Hl];
            [simpl in *; try discriminate; try (injection Hph as <-; lia)|]).
    by inversion Hl.
  - intros l Hl. vm_compute in Hl.
    repeat (apply elem_of_cons in Hl as [-> | Hl]; [done|]).
    by inversion Hl.
  - intros l due Hl Hid Hph. vm_compute in Hl.
    repeat (apply elem_of_cons in Hl as [-> | Hl];
            [simpl in *; try discriminate; try (injection Hph as <-; lia)|]).
    by inversion Hl.
Defined.

End PacingFacts.

(* ===================================================================== *)
(** * Genres and the catalogue page *)
(* ===================================================================== *)

Module CatalogFacts.
Import Js JsNum Archive Browser Catalog JsFacts ArchiveFacts ServiceFacts.

Lemma alias_lookup_in key v table :
  alias_lookup key table = Some v -> (key, v) ∈ table.
Proof.
  induction table as [|[k w] table IH]; simpl; [done|].
  case_bool_decide as Hk.
  - intros [= ->]. subst. left.
  - intros H. right. by apply IH.
Qed.

Lemma alias_values_standard key name :
  alias_lookup key GENRE_ALIASES = Some (Some name) -> name ∈ STANDARD_GENRES.
Proof.
  intros H. apply alias_lookup_in in H.
  assert (forallb (fun kv => match snd kv with
                             | Some n => bool_decide (n ∈ STANDARD_GENRES)
                             | None => true
                             end) GENRE_ALIASES = true) as Hall
    by (vm_compute; reflexivity).
  rewrite forallb_forall in Hall.
  apply list_elem_of_In in H. specialize (Hall _ H). simpl in Hall.
  by apply bool_decide_eq_true in Hall.
Qed.

Lemma find_in {A} (p : A -> bool) (l : list A) (x : A) :
  List.find p l = Some x -> x ∈ l.
Proof. intros H. apply find_some in H as [H _]. by apply list_elem_of_In. Qed.

Lemma normalizeGenre_name (genre name : string) :
  normalizeGenre genre = GName name -> name ∈ STANDARD_GENRES.
Proof.
  unfold normalizeGenre. destruct (negb (truthy_string genre)); [done|].
  destruct (alias_lookup _ GENRE_ALIASES) as [[n|]|] eqn:Ha; try done.
  - intros [= <-]. by eapply alias_values_standard.
  - case_bool_decide; [done|].
    destruct (List.find _ STANDARD_GENRES) as [g|] eqn:Hf.
    + intros [= <-]. by eapply find_in.
    + match goal with
      | |- context [List.find ?q STANDARD_GENRES] =>
          destruct (List.find q STANDARD_GENRES) as [g|] eqn:Hf2
      end.
      * intros [= <-]. by eapply find_in.
      * intros Hn. discriminate Hn.
Qed.

Lemma normalizeGenre_name_inherited (genre property : string) :
  normalizeGenre genre = GInherited property ->
  property ∈ INHERITED /\ trim (toLowerCase genre) = property.
Proof.
  intros Hn. unfold normalizeGenre in Hn. destruct (negb (truthy_string genre)); [done|].
  destruct (alias_lookup _ GENRE_ALIASES) as [[n|]|]; try done.
  case_bool_decide as Hin.
  - by injection Hn as <-.
  - destruct (List.find _ STANDARD_GENRES); [done|].
    by destruct (List.find _ STANDARD_GENRES).
Qed.

(** X11.  [normalizeGenre] answers [null], or one of the 22 standard
    genres, or, for the two subjects that name a property every object
    inherits ([constructor], [__proto__], in any letter case), the value
    of that property.  Each standard genre is normalised to itself. *)
Theorem normalizeGenre_vocabulary :
  (forall genre : string,
     match normalizeGenre genre with
     | GNull => True
     | GName name => name ∈ STANDARD_GENRES
     | GInherited property =>
         property ∈ INHERITED /\ trim (toLowerCase genre) = property
     end)
  /\ (forall g, g ∈ STANDARD_GENRES -> normalizeGenre g = GName g).
Proof.
  split.
  - intros genre. destruct (normalizeGenre genre) as [|name|property] eqn:Hn;
      [done|by eapply normalizeGenre_name|].
    unfold normalizeGenre in Hn. destruct (negb (truthy_string genre)); [done|].
    destruct (alias_lookup _ GENRE_ALIASES) as [[n|]|]; try done.
    case_bool_decide as Hin.
    + by injection Hn as <-.
    + destruct (List.find _ STANDARD_GENRES); [done|].
      by destruct (List.find _ STANDARD_GENRES).
  - intros g Hg. unfold STANDARD_GENRES in Hg.
    repeat (apply elem_of_cons in Hg as [-> | Hg]; [vm_compute; reflexivity|]).
    by inversion Hg.
Qed.

(** *** Sorting strings *)

Lemma insert_sorted_perm x l : insert_sorted x l ≡ₚ x :: l.
Proof.
  induction l as [|y l IH]; simpl; [done|].
  destruct (String.leb x y); [done|]. rewrite IH. apply Permutation_swap.
Qed.

Lemma sort_strings_perm l : sort_strings l ≡ₚ l.
Proof.
  induction l as [|x l IH]; simpl; [done|].
  by rewrite insert_sorted_perm, IH.
Qed.

Lemma leb_total (x y : string) : String.leb x y = false -> String.le y x.
Proof.
  intros H. destruct (total String.le x y) as [Hxy|Hyx]; [|done].
  unfold String.le in Hxy. rewrite H in Hxy. done.
Qed.

Lemma insert_sorted_sorted x l :
  Sorted String.le l -> Sorted String.le (insert_sorted x l).
Proof.
  induction l as [|y l IH]; simpl; intros Hs.
  - by repeat constructor.
  - destruct (String.leb x y) eqn:Hxy.
    + constructor; [done|]. constructor. unfold String.le. by rewrite Hxy.
    + apply Sorted_inv in Hs as [Hs Hhd]. constructor; [by apply IH|].
      destruct l as [|z l]; simpl.
      * constructor. by apply leb_total.
      * destruct (String.leb x z); constructor;
          [by apply leb_total|by inversion Hhd].
Qed.

Lemma sort_strings_sorted l : Sorted String.le (sort_strings l).
Proof.
  induction l as [|x l IH]; simpl; [constructor|by apply insert_sorted_sorted].
Qed.

Lemma collect_genres_elem parts gs g :
  collect_genres parts = Some gs ->
  (g ∈ gs <-> exists part, part ∈ parts /\ normalizeGenre part = GName g).
Proof.
  revert gs. induction parts as [|part parts IH]; simpl; intros gs.
  - intros [= <-]. split; [by intros H; inversion H|].
    intros (p & Hp & _). by inversion Hp.
  - destruct (normalizeGenre part) as [|name|property] eqn:Hn; [| |done].
    + intros Hc. rewrite (IH gs Hc). split.
      * intros (p & Hp & Hg). exists p. split; [by right|done].
      * intros (p & Hp & Hg). apply elem_of_cons in Hp as [-> | Hp];
          [congruence|by exists p].
    + intros Hc. apply fmap_Some in Hc as (gs' & Hc & ->).
      rewrite elem_of_cons, (IH gs' Hc). split.
      * intros [-> | (p & Hp & Hg)].
        -- exists part. split; [left|done].
        -- exists p. split; [by right|done].
      * intros (p & Hp & Hg). apply elem_of_cons in Hp as [-> | Hp].
        -- left. congruence.
        -- right. by exists p.
Qed.

Lemma collect_genres_some parts :
  (forall part, part ∈ parts -> trim (toLowerCase part) ∉ INHERITED) ->
  is_Some (collect_genres parts).
Proof.
  induction parts as [|part parts IH]; simpl; intros H; [by eexists|].
  destruct IH as [gs Hgs]; [intros p Hp; apply H; by right|].
  destruct (normalizeGenre part) as [|name|property] eqn:Hn.
  - by exists gs.
  - rewrite Hgs. by eexists.
  - exfalso. destruct (normalizeGenre_name_inherited part property Hn)
      as [Hin Heq].
    apply (H part); [left|]. by rewrite Heq.
Qed.

Lemma collected_sorted parts gs :
  collect_genres parts = Some gs ->
  let out := sort_strings (remove_dups gs) in
  Sorted String.le out /\ NoDup out
  /\ (forall g, g ∈ out -> g ∈ STANDARD_GENRES)
  /\ (forall g, g ∈ out <->
        exists part, part ∈ parts /\ normalizeGenre part = GName g).
Proof.
  intros Hc out. subst out.
  assert (forall g, g ∈ sort_strings (remove_dups gs) <-> g ∈ gs) as Hel.
  { intros g. by rewrite sort_strings_perm, elem_of_remove_dups. }
  split; [apply sort_strings_sorted|].
  split; [rewrite sort_strings_perm; apply NoDup_remove_dups|].
  split.
  - intros g Hg. apply Hel, (collect_genres_elem parts gs g Hc) in Hg
      as (part & _ & Hn). by eapply normalizeGenre_name.
  - intros g. rewrite Hel. by apply collect_genres_elem.
Qed.

Lemma extractGenres_shape subject gs :
  extractGenres subject = Some gs ->
  Sorted String.le gs /\ NoDup gs
  /\ (forall g, g ∈ gs -> g ∈ STANDARD_GENRES)
  /\ (forall g, g ∈ gs <->
        exists part, part ∈ subject_parts subject /\
                     normalizeGenre part = GName g).
Proof.
  assert (forall parts : list string,
            (forall part g, part ∈ parts -> normalizeGenre part <> GName g) ->
            Sorted String.le [] /\ NoDup (@nil string)
            /\ (forall g : string, g ∈ @nil string -> g ∈ STANDARD_GENRES)
            /\ (forall g, g ∈ @nil string <->
                  exists part, part ∈ parts /\ normalizeGenre part = GName g))
    as Hempty.
  { intros parts Hno. split; [constructor|]. split; [constructor|].
    split; [intros g Hg; by inversion Hg|].
    intros g. split; [intros Hg; by inversion Hg|].
    intros (part & Hp & Hn). by destruct (Hno part g Hp). }
  intros He. destruct subject as [|[|c s]|l]; simpl in He.
  - injection He as <-. apply Hempty. intros part g Hp. by inversion Hp.
  - injection He as <-. apply Hempty. intros part g Hp. vm_compute in Hp.
    apply elem_of_cons in Hp as [-> | Hp]; [discriminate|by inversion Hp].
  - apply fmap_Some in He as (gs' & Hc & ->). by apply collected_sorted.
  - apply fmap_Some in He as (gs' & Hc & ->). by apply collected_sorted.
Qed.

(** X12.  The genres [extractGenres] returns are standard genres, in
    ascending order and without repetition: a genre is listed exactly
    when some part of a subject (split at [;], [,] and [/], trimmed)
    normalises to it.  A result exists whenever no part names an
    inherited property. *)
Theorem extractGenres_sorted_standard (subject : raw_field) :
  (forall gs, extractGenres subject = Some gs ->
     Sorted String.le gs /\ NoDup gs
     /\ (forall g, g ∈ gs -> g ∈ STANDARD_GENRES)
     /\ (forall g, g ∈ gs <->
           exists part, part ∈ subject_parts subject /\
                        normalizeGenre part = GName g))
  /\ ((forall part, part ∈ subject_parts subject ->
         trim (toLowerCase part) ∉ INHERITED) ->
      is_Some (extractGenres subject)).
Proof.
  split; [intros gs; apply extractGenres_shape|].
  intros Hparts. destruct subject as [|[|c s]|l]; simpl; try by eexists.
  - destruct (collect_genres_some _ Hparts) as [gs Hgs].
    rewrite Hgs. by eexists.
  - destruct (collect_genres_some _ Hparts) as [gs Hgs].
    rewrite Hgs. by eexists.
Qed.

Lemma extractGenres_sorted_standard_witness :
  extractGenres (Single "horror; Sci-Fi, comedy/HORROR;movies")
  = Some ["Comedy"; "Horror"; "Sci-Fi"]
  /\ Sorted String.le ["Comedy"; "Horror"; "Sci-Fi"].
Proof.
  assert (extractGenres (Single "horror; Sci-Fi, comedy/HORROR;movies")
          = Some ["Comedy"; "Horror"; "Sci-Fi"]) as He
    by (vm_compute; reflexivity).
  split; [exact He|].
  exact (proj1 (proj1 (extractGenres_sorted_standard _) _ He)).
Defined.

(** *** The genre list with every value *)

Lemma standard_truthy (name : string) :
  name ∈ STANDARD_GENRES -> truthy_string name = true.
Proof.
  intros H.
  assert (forallb truthy_string STANDARD_GENRES = true) as Hall
    by (vm_compute; reflexivity).
  rewrite forallb_forall in Hall. apply Hall. by apply list_elem_of_In.
Qed.

Lemma insert_by_key_perm x l : insert_by_key x l ≡ₚ x :: l.
Proof.
  induction l as [|y l IH]; simpl; [done|].
  destruct (String.leb (sort_key x) (sort_key y)); [done|].
  rewrite IH. apply Permutation_swap.
Qed.

Lemma sort_values_perm l : sort_values l ≡ₚ l.
Proof.
  induction l as [|x l IH]; simpl; [done|].
  rewrite insert_by_key_perm. by rewrite IH.
Qed.

Lemma collect_values_elem parts g :
  g ∈ collect_values parts ->
  exists part, part ∈ parts /\ normalizeGenre part = g /\ truthy_value g = true.
Proof.
  induction parts as [|part parts IH]; simpl; [by intros H; inversion H|].
  destruct (truthy_value (normalizeGenre part)) eqn:Ht.
  - intros H. apply elem_of_cons in H as [-> | H].
    + exists part. split; [left|done].
    + destruct (IH H) as (q & Hq & Hn). exists q. split; [by right|done].
  - intros H. destruct (IH H) as (q & Hq & Hn). exists q. split; [by right|done].
Qed.

Lemma extractGenres_values_elem subject g :
  g ∈ extractGenres_values subject ->
  exists part, part ∈ subject_parts subject /\ normalizeGenre part = g
               /\ truthy_value g = true.
Proof.
  intros H. apply collect_values_elem.
  assert (g ∈ sort_values (remove_dups (collect_values (subject_parts subject)))
          -> g ∈ collect_values (subject_parts subject)) as Hin.
  { rewrite sort_values_perm. by rewrite elem_of_remove_dups. }
  destruct subject as [|s|l]; simpl in H.
  - inversion H.
  - destruct s; [inversion H|]. by apply Hin.
  - by apply Hin.
Qed.

(** Each entry is a standard genre or the value of an inherited
    property that a part of the subject names. *)
Lemma extractGenres_values_kinds subject g :
  g ∈ extractGenres_values subject ->
  (exists name, g = GName name /\ name ∈ STANDARD_GENRES)
  \/ (exists property part,
        g = GInherited property /\ property ∈ INHERITED /\
        part ∈ subject_parts subject /\ trim (toLowerCase part) = property).
Proof.
  intros H. destruct (extractGenres_values_elem _ _ H) as (part & Hp & Hn & Ht).
  destruct g as [|name|property]; [done| |].
  - left. exists name. split; [done|]. by eapply normalizeGenre_name.
  - right. exists property, part.
    destruct (normalizeGenre_name_inherited _ _ Hn) as [Hi Hl]. done.
Qed.

Lemma collect_genres_values parts names :
  collect_genres parts = Some names -> collect_values parts = map GName names.
Proof.
  revert names. induction parts as [|part parts IH]; simpl; intros names.
  - by intros [= <-].
  - destruct (normalizeGenre part) as [|name|property] eqn:Hn; simpl.
    + apply IH.
    + intros H. apply fmap_Some in H as (rest & Hrest & ->).
      rewrite (standard_truthy name) by (by eapply normalizeGenre_name).
      simpl. by rewrite (IH _ Hrest).
    + done.
Qed.

Lemma elem_of_map_GName name names : GName name ∈ map GName names <-> name ∈ names.
Proof.
  split.
  - intros H. apply elem_of_map_inv in H as (n & Hn & Heq). by injection Heq as ->.
  - apply (elem_of_map_1 GName).
Qed.

Lemma remove_dups_names names :
  remove_dups (map GName names) = map GName (remove_dups names).
Proof.
  induction names as [|n names IH]; simpl; [done|].
  destruct (decide_rel elem_of n names) as [Hin|Hin];
    destruct (decide_rel elem_of (GName n) (map GName names)) as [Hin'|Hin'].
  - done.
  - exfalso. by apply Hin', elem_of_map_GName.
  - exfalso. by apply Hin, elem_of_map_GName.
  - simpl. by rewrite IH.
Qed.

Lemma insert_by_key_names n names :
  insert_by_key (GName n) (map GName names) = map GName (insert_sorted n names).
Proof.
  induction names as [|m names IH]; simpl; [done|].
  destruct (String.leb n m); simpl; [done|]. by rewrite IH.
Qed.

Lemma sort_values_names names :
  sort_values (map GName names) = map GName (sort_strings names).
Proof.
  induction names as [|n names IH]; [done|].
  change (sort_values (map GName (n :: names)))
    with (insert_by_key (GName n) (sort_values (map GName names))).
  rewrite IH. apply insert_by_key_names.
Qed.

(** Where [extractGenres] has a result, it is the array of names. *)
Lemma extractGenres_values_names subject gs :
  extractGenres subject = Some gs -> extractGenres_values subject = map GName gs.
Proof.
  assert (forall parts,
            (fun genres => sort_strings (remove_dups genres))
              <$> collect_genres parts = Some gs ->
            sort_values (remove_dups (collect_values parts)) = map GName gs)
    as Hgen.
  { intros parts H. apply fmap_Some in H as (names & Hnames & ->).
    rewrite (collect_genres_values _ _ Hnames), remove_dups_names.
    apply sort_values_names. }
  destruct subject as [|s|l]; simpl.
  - by intros [= <-].
  - destruct s; [by intros [= <-]|]. apply Hgen.
  - apply Hgen.
Qed.

(** *** The page built from the documents *)

Lemma to_item_genres d :
  i_genres (to_item d) <> [] /\
  (i_genres (to_item d) = [GName "Uncategorized"] \/
   i_genres (to_item d) = extractGenres_values (d_subject d)).
Proof.
  unfold to_item. simpl.
  destruct (extractGenres_values (d_subject d)); [by split; [|left]|].
  by split; [|right].
Qed.

Lemma fetchMovies_from_docs docs minRuntime m :
  m ∈ fetchMovies (Some docs) minRuntime ->
  exists d, d ∈ docs /\ m = to_item d /\ isBlockedContent d = false.
Proof.
  unfold fetchMovies. intros Hm.
  assert (m ∈ map to_item (List.filter (fun d => negb (isBlockedContent d)) docs))
    as Hin.
  { destruct (lt (of_N 0) minRuntime); [|done].
    by apply elem_of_filter_bool in Hm as [Hm _]. }
  apply elem_of_map_inv in Hin as (d & Hd & <-).
  apply elem_of_filter_bool in Hd as [Hd Hb]. apply negb_true_iff in Hb.
  by exists d.
Qed.

(** X13.  On a response with documents, [fetchMovies] returns at most
    one item per document, each built from a document that is not
    blocked.  Documents with pairwise distinct identifiers give a page
    with pairwise distinct identifiers.  Every item has at least one
    genre: the single entry [Uncategorized], or entries each of which
    is a standard genre or, when a part of the subject names an
    inherited property ([constructor], [__proto__]), the value of that
    property.  Where [extractGenres] has a result of names only, these
    are the genres of the item.  With a positive [minRuntime], every
    item has at least that runtime. *)
Theorem fetchMovies_page (docs : list doc) (minRuntime : jsnum) :
  let movies := fetchMovies (Some docs) minRuntime in
  (length movies <= length docs)%nat
  /\ (forall m, m ∈ movies ->
        exists d, d ∈ docs /\ m = to_item d /\ isBlockedContent d = false)
  /\ (NoDup (map d_identifier docs) -> NoDup (map i_identifier movies))
  /\ (forall d g,
        i_genres (to_item d) <> [] /\
        (g ∈ i_genres (to_item d) ->
         g = GName "Uncategorized"
         \/ (exists name, g = GName name /\ name ∈ STANDARD_GENRES)
         \/ (exists property part,
               g = GInherited property /\ property ∈ INHERITED /\
               part ∈ subject_parts (d_subject d) /\
               trim (toLowerCase part) = property)))
  /\ (forall d gs,
        extractGenres (d_subject d) = Some gs ->
        i_genres (to_item d)
        = match gs with [] => [GName "Uncategorized"] | _ => map GName gs end)
  /\ (lt (of_N 0) minRuntime = true ->
      forall m, m ∈ movies -> ge (i_runtimeMinutes m) minRuntime = true).
Proof.
  intros movies.
  set (kept := List.filter (fun d => negb (isBlockedContent d)) docs).
  assert (map i_identifier (map to_item kept) = map d_identifier kept) as Hids.
  { rewrite map_map. by apply map_ext. }
  split; [|split; [|split; [|split; [|split]]]].
  - assert (length (map to_item kept) <= length docs)%nat as Hlen.
    { rewrite length_map. apply filter_length_le. }
    unfold movies, fetchMovies. fold kept.
    destruct (lt (of_N 0) minRuntime); [|done].
    etransitivity; [apply filter_length_le|done].
  - intros m. apply fetchMovies_from_docs.
  - intros Hnd.
    assert (NoDup (map i_identifier (map to_item kept))) as Hnd'.
    { rewrite Hids. by apply NoDup_map_filter. }
    unfold movies, fetchMovies. fold kept.
    destruct (lt (of_N 0) minRuntime); [|done].
    by apply NoDup_map_filter.
  - intros d g. destruct (to_item_genres d) as [Hne [Hu | Hv]].
    + split; [done|]. rewrite Hu. intros Hg. left.
      apply elem_of_cons in Hg as [-> | Hg]; [done|inversion Hg].
    + split; [done|]. rewrite Hv. intros Hg. right.
      by apply extractGenres_values_kinds.
  - intros d gs He. unfold to_item. simpl.
    rewrite (extractGenres_values_names _ _ He). by destruct gs.
  - intros Hpos m Hm. unfold movies, fetchMovies in Hm. rewrite Hpos in Hm.
    by apply elem_of_filter_bool in Hm as [_ Hm].
Qed.

(** X14.  The content filter: no item [fetchMovies] returns has an
    identifier containing [thechild], and a returned title contains
    [the child] (letter case ignored) only when the document had no
    title and the title shown is the identifier. *)
Theorem fetchMovies_blocked
    (docs : list doc) (minRuntime : jsnum) (m : item) :
  m ∈ fetchMovies (Some docs) minRuntime ->
  includes (toLowerCase (i_identifier m)) "thechild" = false
  /\ (includes (toLowerCase (i_title m)) "the child" = true ->
      i_title m = i_identifier m).
Proof.
  intros Hm.
  destruct (fetchMovies_from_docs docs minRuntime m Hm) as (d & _ & -> & Hb).
  unfold isBlockedContent in Hb. apply orb_false_iff in Hb as [Ht Hi].
  unfold to_item. simpl. split; [done|].
  destruct (truthy_opt (title_of d)); [|done]. congruence.
Qed.

Lemma fetchMovies_page_witness :
  map (fun m => (i_identifier m, i_genres m))
      (Catalog.fetchMovies (Some Samples.sample_docs) (of_N 0))
  = [("night_of_the_living_dead", [GName "Horror"]);
     ("plan9", [GName "Uncategorized"]);
     ("metropolis_1927", [GName "Horror"; GInherited "constructor"])]
  /\ (length (Catalog.fetchMovies (Some Samples.sample_docs) (of_N 0))
      <= length Samples.sample_docs)%nat.
Proof.
  split; [vm_compute; reflexivity|].
  exact (proj1 (fetchMovies_page Samples.sample_docs (of_N 0))).
Defined.

Lemma fetchMovies_blocked_witness :
  let m := to_item {| d_identifier := "metropolis_1927";
                      d_title := Single "Metropolis";
                      d_subject := Single "constructor; Horror";
                      d_runtime := Some "2:33:00";
                      d_year := Some "1927" |} in
  m ∈ Catalog.fetchMovies (Some Samples.sample_docs) (of_N 0)
  /\ includes (toLowerCase (i_identifier m)) "thechild" = false.
Proof.
  intros m.
  assert (m ∈ Catalog.fetchMovies (Some Samples.sample_docs) (of_N 0)) as Hm.
  { apply (elem_of_map_1 to_item). right. right. left. }
  split; [exact Hm|].
  exact (proj1 (fetchMovies_blocked Samples.sample_docs (of_N 0) m Hm)).
Defined.

(** *** [formatRuntime] *)

Lemma floor_between (x : Q) (a b : Z) :
  (inject_Z a <= x)%Q -> (x < inject_Z (b + 1))%Q -> a <= Qfloor x <= b.
Proof.
  intros Ha Hb. split.
  - rewrite <- (Qfloor_Z a). by apply Qfloor_resp_le.
  - pose proof (Qfloor_le x) as Hf.
    assert (inject_Z (Qfloor x) < inject_Z (b + 1))%Q as Hlt
      by (eapply Qle_lt_trans; eauto).
    rewrite <- Zlt_Qlt in Hlt. lia.
Qed.

Lemma hours_int (n : Z) : hours_of (inject_Z n) = n / 60.
Proof.
  unfold hours_of, Qfloor, Qdiv, Qmult, Qinv, inject_Z. simpl.
  f_equal. lia.
Qed.

Lemma minutes_int (n : Z) : minutes_of (inject_Z n) = n mod 60.
Proof.
  unfold minutes_of. rewrite hours_int.
  unfold Qfloor, Qplus, Qminus, Qplus, Qopp, inject_Z. simpl.
  rewrite ?Z.mul_1_r. change (Z.pos (1 * 1 * 2)) with 2.
  pose proof (Z.div_mod n 60 ltac:(lia)) as Hn.
  pose proof (Z.mod_pos_bound n 60 ltac:(lia)) as Hr.
  replace ((n + - (60 * (n / 60))) * 2 + 1) with (1 + (n mod 60) * 2) by lia.
  rewrite Z.div_add by lia. change (1 / 2) with 0. lia.
Qed.

Lemma parts_bounds (q : Q) :
  (0 < q)%Q ->
  0 <= hours_of q /\ 0 <= minutes_of q <= 60
  /\ (minutes_of q = 60 <-> (inject_Z (60 * hours_of q) + (119 # 2) <= q)%Q).
Proof.
  intros Hq. unfold minutes_of.
  set (h := hours_of q).
  pose proof (Qfloor_le (q / 60)) as Hlo.
  pose proof (Qlt_floor (q / 60)) as Hhi.
  fold (hours_of q) in Hlo, Hhi. fold h in Hlo, Hhi.
  assert (q == 60 * (q / 60))%Q as Hx by (field).
  assert (0 <= h) as Hh.
  { subst h. unfold hours_of.
    apply (floor_between (q / 60) 0 (Qfloor (q / 60))); [|apply Qlt_floor].
    change (inject_Z 0) with 0%Q. lra. }
  set (x := (q / 60)%Q) in *.
  rewrite inject_Z_plus in Hhi. rewrite inject_Z_mult.
  change (inject_Z 60) with 60%Q. change (inject_Z 1) with 1%Q in Hhi.
  split; [done|].
  set (y := (q - 60 * inject_Z h + (1 # 2))%Q).
  assert (0 <= Qfloor y <= 60) as Hm.
  { apply floor_between.
    - change (inject_Z 0) with 0%Q. unfold y. lra.
    - change (inject_Z (60 + 1)) with 61%Q. unfold y. lra. }
  split; [done|]. split.
  - intros H60. pose proof (Qfloor_le y) as Hy. rewrite H60 in Hy.
    change (inject_Z 60) with 60%Q in Hy. unfold y in Hy. lra.
  - intros Hge. assert (60 <= Qfloor y); [|lia].
    apply (floor_between y 60 (Qfloor y)); [|apply Qlt_floor].
    change (inject_Z 60) with 60%Q. unfold y. lra.
Qed.

(** X15.  [formatRuntime] shows [Unknown] for [NaN], zero and negative
    numbers.  For a positive number it shows the whole hours, when there
    are any, and the minutes rounded to the nearest integer, which is a
    number from 0 to 60: it is 60 exactly when the minutes beyond the
    whole hours are 59.5 or more, so 119 2/3 minutes are shown as
    [1h 60m].  For a whole number of minutes [n] it shows [n / 60] hours
    and [n mod 60] minutes. *)
Theorem formatRuntime_parts :
  formatRuntime NaN = "Unknown"
  /\ (forall q, (q <= 0)%Q -> formatRuntime (Num q) = "Unknown")
  /\ (forall q, (0 < q)%Q ->
        let hrs := hours_of q in
        let mins := minutes_of q in
        formatRuntime (Num q)
        = (if (0 <? hrs)%Z
           then pretty hrs +:+ "h " +:+ pretty mins +:+ "m"
           else pretty mins +:+ "m")
        /\ 0 <= hrs /\ 0 <= mins <= 60
        /\ (mins = 60 <-> (inject_Z (60 * hrs) + (119 # 2) <= q)%Q))
  /\ (forall n : Z, hours_of (inject_Z n) = n / 60
                    /\ minutes_of (inject_Z n) = n mod 60)
  /\ formatRuntime (Num (359 # 3)) = "1h 60m".
Proof.
  split; [done|]. split; [|split; [|split]].
  - intros q Hq. simpl. apply Qle_bool_iff in Hq. by rewrite Hq.
  - intros q Hq hrs mins. split; [|by apply parts_bounds].
    simpl. destruct (Qle_bool q 0) eqn:Hle; [|done].
    apply Qle_bool_iff in Hle. lra.
  - intros n. split; [apply hours_int|apply minutes_int].
  - vm_compute. reflexivity.
Qed.

End CatalogFacts.

(* ===================================================================== *)
(** * More shapes of a runtime *)
(* ===================================================================== *)

Module RuntimeFacts.
Import Js JsNum Archive JsFacts ArchiveFacts TitleFacts.

Lemma take_while_stop (p : ascii -> bool) (a rest : list ascii) :
  forallb p a = true ->
  (forall c, head rest = Some c -> p c = false) ->
  take_while p (a ++ rest) = a.
Proof.
  intros Ha Hrest. induction a as [|c a IH]; simpl in *.
  - destruct rest as [|c rest]; [done|]. simpl. by rewrite (Hrest c).
  - apply andb_true_iff in Ha as [-> Ha]. by rewrite IH.
Qed.

Lemma includes_single_false (c : ascii) (l : list ascii) :
  c ∉ l -> includes_chars l [c] = false.
Proof.
  induction l as [|a l IH]; simpl; intros Hc; [done|].
  rewrite IH by (intros ?; apply Hc; by right).
  destruct (decide (c = a)) as [->|]; [|done].
  exfalso. apply Hc. left.
Qed.

Lemma colon_not_digit : is_digit ":"%char = false.
Proof. done. Qed.

Lemma first_digits_at (pre d post : list ascii) :
  forallb (fun c => negb (is_digit c)) pre = true ->
  d <> [] -> forallb is_digit d = true ->
  (forall c, head post = Some c -> is_digit c = false) ->
  first_digits (str (pre ++ d ++ post)) = Some d.
Proof.
  intros Hpre Hne Hd Hpost. unfold first_digits. rewrite chars_str.
  rewrite drop_while_all by done.
  destruct d as [|c d]; [done|]. simpl in Hd.
  apply andb_true_iff in Hd as [Hc Hd].
  simpl. rewrite Hc. simpl. rewrite Hc. by rewrite take_while_stop.
Qed.

(** X16.  For components of decimal digits, [H:M:S] is read as
    [H*60 + M + S/60] minutes.  With four or more components the colons
    are not interpreted at all: the runtime is the first number of the
    string, so [A:B:C:D] is read as [A] minutes. *)
Theorem parseRuntime_colon_shapes (A B C D : list ascii) :
  forallb is_digit A = true -> forallb is_digit B = true ->
  forallb is_digit C = true -> forallb is_digit D = true ->
  parseRuntime (Some (str (A ++ ":"%char :: B ++ ":"%char :: C)))
  = add (add (mul (of_N (digits_value A)) (of_N 60)) (of_N (digits_value B)))
        (div_by (of_N (digits_value C)) 60)
  /\ (A <> [] ->
      parseRuntime
        (Some (str (A ++ ":"%char :: B ++ ":"%char :: C ++ ":"%char :: D)))
      = of_N (digits_value A)).
Proof.
  intros HA HB HC HD.
  assert (forall rest, truthy_string (str (A ++ ":"%char :: rest)) = true)
    as Htruthy by (intros rest; destruct A; apply truthy_str_cons).
  assert (forall rest, includes (str (A ++ ":"%char :: rest)) ":" = true)
    as Hincl.
  { intros rest. unfold includes. rewrite chars_str.
    apply includes_chars_spec. by exists A, rest. }
  split.
  - unfold parseRuntime. rewrite Htruthy, Hincl. simpl negb. cbv iota.
    unfold split. rewrite chars_str.
    rewrite split_go_sep by by apply digits_no_colon.
    rewrite split_go_sep by by apply digits_no_colon.
    rewrite split_go_no_sep by by apply digits_no_colon.
    simpl. by rewrite !Number_digits.
  - intros HneA. unfold parseRuntime. rewrite Htruthy, Hincl. simpl negb.
    cbv iota. unfold split. rewrite chars_str.
    rewrite split_go_sep by by apply digits_no_colon.
    rewrite split_go_sep by by apply digits_no_colon.
    rewrite split_go_sep by by apply digits_no_colon.
    rewrite split_go_no_sep by by apply digits_no_colon.
    assert (first_digits
              (str (A ++ ":"%char :: B ++ ":"%char :: C ++ ":"%char :: D))
            = Some A) as Hfd.
    { apply (first_digits_at [] A
               (":"%char :: B ++ ":"%char :: C ++ ":"%char :: D)); try done.
      by intros c [= <-]. }
    rewrite Hfd. reflexivity.
Qed.

Lemma parseRuntime_colon_shapes_witness :
  parseRuntime (Some (str (chars "1" ++ ":"%char :: chars "35" ++
                           ":"%char :: chars "47")))
  = add (add (mul (of_N 1) (of_N 60)) (of_N 35)) (div_by (of_N 47) 60).
Proof.
  exact (proj1 (parseRuntime_colon_shapes (chars "1") (chars "35") (chars "47")
                  [] eq_refl eq_refl eq_refl eq_refl)).
Defined.

(** X17.  A runtime without colon is read as its first run of decimal
    digits, whatever stands before and after it (["approx. 90 min"] is
    90), and as 0 when it has no digit; a missing or empty runtime is
    0. *)
Theorem parseRuntime_plain (pre d post : list ascii) :
  forallb (fun c => negb (is_digit c)) pre = true ->
  forallb is_digit d = true ->
  (forall c, head post = Some c -> is_digit c = false) ->
  ":"%char ∉ pre ++ d ++ post ->
  (d <> [] -> parseRuntime (Some (str (pre ++ d ++ post))) = of_N (digits_value d))
  /\ parseRuntime (Some (str pre)) = of_N 0
  /\ parseRuntime None = of_N 0.
Proof.
  intros Hpre Hd Hpost Hcolon. split; [|split; [|done]].
  - intros Hne.
    assert (truthy_string (str (pre ++ d ++ post)) = true) as Ht.
    { destruct pre; [|done]. by destruct d. }
    assert (includes (str (pre ++ d ++ post)) ":" = false) as Hi.
    { unfold includes. rewrite chars_str. by apply includes_single_false. }
    pose proof (first_digits_at pre d post Hpre Hne Hd Hpost) as Hfd.
    unfold parseRuntime. rewrite Ht, Hi, Hfd. reflexivity.
  - assert (includes (str pre) ":" = false) as Hi.
    { unfold includes. rewrite chars_str. apply includes_single_false.
      intros Hin. apply Hcolon. apply elem_of_app. by left. }
    assert (first_digits (str pre) = None) as Hfd.
    { unfold first_digits. rewrite chars_str.
      rewrite <- (app_nil_r pre). by rewrite drop_while_all. }
    unfold parseRuntime. rewrite Hi, Hfd.
    by destruct (truthy_string (str pre)).
Qed.

Lemma parseRuntime_plain_witness :
  parseRuntime (Some (str (chars "approx. " ++ chars "90" ++ chars " min")))
  = of_N 90.
Proof.
  refine (proj1 (parseRuntime_plain (chars "approx. ") (chars "90") (chars " min")
                   eq_refl eq_refl _ _) _).
  - by intros c [= <-].
  - intros Hin. vm_compute in Hin.
    repeat (apply elem_of_cons in Hin as [Hin|Hin]; [discriminate|]).
    by inversion Hin.
  - discriminate.
Defined.

End RuntimeFacts.

(* ===================================================================== *)
(** * Callbacks, related lists and the displayed order *)
(* ===================================================================== *)

Module HandlerFacts.
Import Js JsNum Browser Handlers JsFacts BrowserFacts.

Lemma handleImageStatus_elem id i b (prev : gset string) :
  id ∈ handleImageStatus i b prev <-> id ∈ prev \/ (b = false /\ id = i).
Proof.
  unfold handleImageStatus. destruct b.
  - split; [by left|]. by intros [?|[? _]].
  - rewrite elem_of_union, elem_of_singleton. split.
    + intros [?|?]; auto.
    + intros [?|[_ ?]]; auto.
Qed.

Lemma after_reports_elem (reports : list (string * bool)) (prev : gset string) id :
  id ∈ after_reports reports prev <-> id ∈ prev \/ (id, false) ∈ reports.
Proof.
  unfold after_reports. revert prev.
  induction reports as [|[i b] reports IH]; intros prev; simpl.
  - split; [by left|]. intros [?|H]; [done|by inversion H].
  - rewrite IH, handleImageStatus_elem, elem_of_cons. simpl. split.
    + intros [[?|[-> ->]]|?]; auto.
    + intros [?|[[= -> ->]|?]]; auto.
Qed.

(** X18.  After any sequence of reports by the cards, an identifier is
    in [moviesWithoutImages] exactly when it was there before or some
    card reported it without image; a later report with image does not
    take it out.  While no search is active and an API key is present,
    an item so reported is not in [filteredByRuntime]. *)
Theorem reported_missing_stays
    (reports : list (string * bool)) (prev : gset string) :
  (forall id, id ∈ after_reports reports prev <->
              id ∈ prev \/ (id, false) ∈ reports)
  /\ (forall cache f movies m,
        moviesWithoutImages f = after_reports reports prev ->
        (identifier m, false) ∈ reports ->
        activeSearch f = "" -> tmdbApiKey f <> "" ->
        m ∉ filteredByRuntime cache f movies).
Proof.
  split; [intros id; apply after_reports_elem|].
  intros cache f movies m Hset Hrep Hs Hk.
  unfold filteredByRuntime. rewrite Hs. simpl.
  apply truthy_string_spec in Hk. rewrite Hk.
  rewrite elem_of_filter_bool, poster_not_missing_spec, Hset.
  intros [_ [Hnot _]]. apply Hnot, after_reports_elem. by right.
Qed.

Lemma firstn_elem {A} (n : nat) (l : list A) (x : A) : x ∈ firstn n l -> x ∈ l.
Proof.
  intros H. rewrite <- (firstn_skipn n l). apply elem_of_app. by left.
Qed.

Lemma firstn_NoDup {A} (n : nat) (l : list A) : NoDup l -> NoDup (firstn n l).
Proof.
  intros H. rewrite <- (firstn_skipn n l) in H.
  by apply NoDup_app in H as [H _].
Qed.

Lemma shares_genre_spec current m :
  shares_genre current m = true <->
  exists g, g ∈ genres m /\ g ∈ genres current.
Proof.
  unfold shares_genre. rewrite existsb_exists. split.
  - intros (g & Hg & Hc). exists g. split; [by apply list_elem_of_In|].
    by apply bool_decide_eq_true in Hc.
  - intros (g & Hg & Hc). exists g. split; [by apply list_elem_of_In|].
    by apply bool_decide_eq_true.
Qed.

(** X19.  The related list has at most [limit] items; each is an item
    of the collection other than the current one (by identifier) that
    shares a genre with it, so the current movie is never in its own
    related list; and a collection with pairwise distinct identifiers
    gives a related list with pairwise distinct identifiers. *)
Theorem relatedMovies_spec (limit : nat) (current : movie) (allMovies : list movie) :
  (length (relatedMovies limit current allMovies) <= limit)%nat
  /\ (forall m, m ∈ relatedMovies limit current allMovies ->
        m ∈ allMovies /\ identifier m <> identifier current
        /\ exists g, g ∈ genres m /\ g ∈ genres current)
  /\ (current ∉ relatedMovies limit current allMovies)
  /\ (NoDup (map identifier allMovies) ->
      NoDup (map identifier (relatedMovies limit current allMovies))).
Proof.
  assert (forall m, m ∈ relatedMovies limit current allMovies ->
            m ∈ allMovies /\ identifier m <> identifier current
            /\ exists g, g ∈ genres m /\ g ∈ genres current) as Hel.
  { intros m Hm. unfold relatedMovies in Hm. apply firstn_elem in Hm.
    apply elem_of_filter_bool in Hm as [Hm Hp].
    apply andb_true_iff in Hp as [Hid Hg].
    apply negb_true_iff, bool_decide_eq_false in Hid.
    split; [done|]. split; [done|]. by apply shares_genre_spec. }
  split; [apply firstn_le_length|]. split; [done|]. split.
  - intros Hc. by destruct (Hel current Hc) as (_ & Hne & _).
  - intros Hnd. unfold relatedMovies. rewrite <- firstn_map.
    by apply firstn_NoDup, NoDup_map_filter.
Qed.

Lemma insert_by_rating_sorted f x l :
  Sorted (fun a b => (rating_of f b <= rating_of f a)%Q) l ->
  Sorted (fun a b => (rating_of f b <= rating_of f a)%Q) (insert_by_rating f x l).
Proof.
  induction l as [|y l IH]; simpl; intros Hs; [by repeat constructor|].
  destruct (Qle_bool (rating_of f y) (rating_of f x)) eqn:Hle; simpl.
  - constructor; [done|]. constructor. by apply Qle_bool_iff.
  - assert (rating_of f x <= rating_of f y)%Q as Hxy.
    { apply Qlt_le_weak, Qnot_le_lt. intros H.
      apply Qle_bool_iff in H. congruence. }
    apply Sorted_inv in Hs as [Hs Hhd]. constructor; [by apply IH|].
    destruct l as [|z l]; simpl; [by constructor|].
    destruct (negb (Qle_bool (rating_of f z) (rating_of f x)));
      constructor; [by inversion Hhd|done].
Qed.

Lemma sort_by_rating_sorted f l :
  Sorted (fun a b => (rating_of f b <= rating_of f a)%Q) (sort_by_rating f l).
Proof.
  induction l as [|x l IH]; simpl; [constructor|by apply insert_by_rating_sorted].
Qed.

Lemma displayedMovies_elem cache f movies m :
  m ∈ displayedMovies cache f movies <->
  m ∈ filteredByRuntime cache f movies /\
  (genreFilter f = "all" \/ genreFilter f ∈ genres m).
Proof.
  unfold displayedMovies.
  set (filtered := if bool_decide (genreFilter f = "all") then _ else _).
  assert (m ∈ filtered <->
          m ∈ filteredByRuntime cache f movies /\
          (genreFilter f = "all" \/ genreFilter f ∈ genres m)) as Hf.
  { subst filtered. case_bool_decide as Hall; [tauto|].
    rewrite elem_of_filter_bool, bool_decide_eq_true. tauto. }
  destruct (bool_decide (sortBy f = "tmdb_rating")); [|done].
  by rewrite sort_by_rating_perm.
Qed.

(** X20.  An item is displayed exactly when it is in
    [filteredByRuntime] and the genre filter is [all] or one of its
    genres.  With the sort key [tmdb_rating] the displayed list is in
    descending order of rating, an item without known rating counting
    as rated 0 (for identifiers that do not name a property every
    object inherits, see [own_key]). *)
Theorem displayedMovies_order
    (cache : gmap string Tmdb.cache_entry) (f : filters) (movies : list movie) :
  (forall m, m ∈ displayedMovies cache f movies <->
             m ∈ filteredByRuntime cache f movies /\
             (genreFilter f = "all" \/ genreFilter f ∈ genres m))
  /\ (sortBy f = "tmdb_rating" ->
      (forall m, m ∈ movies -> own_key (identifier m) = true) ->
      Sorted (fun a b => (rating_of f b <= rating_of f a)%Q)
             (displayedMovies cache f movies))
  /\ (forall m, own_key (identifier m) = true ->
                tmdbRatings f !! identifier m = None -> rating_of f m = 0%Q).
Proof.
  split; [intros m; apply displayedMovies_elem|]. split.
  - intros Hsort _. unfold displayedMovies.
    rewrite (bool_decide_eq_true_2 _ Hsort). apply sort_by_rating_sorted.
  - intros m _ Hm. unfold rating_of. by rewrite Hm.
Qed.

(** X21.  An item whose runtime is [NaN] (the runtime text had a colon
    and a component that is not a number, as in ["1:xx"]) is in neither
    the full-movies nor the shorts bucket, so it is never displayed,
    whatever the filters. *)
Theorem nan_runtime_never_displayed
    (cache : gmap string Tmdb.cache_entry) (f : filters)
    (movies : list movie) (m : movie) :
  runtimeMinutes m = NaN ->
  in_bucket f m = false
  /\ (m ∉ filteredByRuntime cache f movies)
  /\ (m ∉ displayedMovies cache f movies).
Proof.
  intros Hnan.
  assert (in_bucket f m = false) as Hb.
  { unfold in_bucket. rewrite Hnan. destruct (contentType f); [|done].
    unfold ge, le. by destruct (minRuntime f). }
  assert (m ∉ filteredByRuntime cache f movies) as Hf.
  { unfold filteredByRuntime.
    destruct (negb _ && _); rewrite ?elem_of_filter_bool; intros H;
      [destruct H as [[_ H] _]|destruct H as [_ H]]; congruence. }
  split; [done|]. split; [done|].
  rewrite displayedMovies_elem. tauto.
Qed.

Lemma nan_runtime_never_displayed_witness :
  let m := {| identifier := "x"; title := "X"; year := None;
              runtimeMinutes := Archive.parseRuntime (Some "1:xx");
              genres := ["Horror"] |} in
  Archive.parseRuntime (Some "1:xx") = NaN
  /\ m ∉ displayedMovies ∅ Samples.browsing [m].
Proof.
  intros m. split; [vm_compute; reflexivity|].
  apply (nan_runtime_never_displayed ∅ Samples.browsing [m] m).
  vm_compute. reflexivity.
Defined.

End HandlerFacts.

(* ===================================================================== *)
(** * What the service never does to the cache; recorded ratings *)
(* ===================================================================== *)

Module KeepFacts.
Import Js JsNum Tmdb Browser Handlers JsFacts CacheFacts ServiceFacts.

Lemma exec_keeps_entries (e : event) (st : service) (k : string) :
  is_Some (tmdbCache st !! k) -> is_Some (tmdbCache (exec e st) !! k).
Proof.
  intros Hk. destruct e as [a|title year now|p now|p resp now]; simpl.
  - done.
  - destruct (searchMovie_cases title year now st)
      as [[_ ->]|[(_ & _ & ->)|[(_ & _ & q & _ & ->)|(_ & _ & _ & Hs)]]];
      try done.
    pose proof (throttledFetch_frame (getCacheKey title year) now st) as Hfr.
    destruct (throttledFetch (getCacheKey title year) now st) as [ph st1].
    simpl in Hfr. destruct Hfr as (_ & Hcache & _).
    rewrite Hs. simpl. by rewrite Hcache.
  - unfold timerFired. destruct (find_lookup p (inflight st)) as [l|]; [|done].
    by destruct (l_phase l).
  - destruct (settle_cases p resp now st) as [(l & Hf & Hph)| ->]; [|done].
    rewrite (settle_sent _ _ _ _ _ Hf Hph). simpl. unfold setCache.
    destruct (decide (getCacheKey (l_title l) (l_year l) = k)) as [<-|Hne].
    + rewrite lookup_insert_eq. by eexists.
    + by rewrite lookup_insert_ne.
Qed.

(** X22.  The service never removes an entry from the cache: a key that
    has an entry keeps one, possibly rewritten, through every sequence
    of key changes, searches, timers and responses.  (Entries go away
    only when the page is loaded again and the stored cache is
    rejected.) *)
Theorem cache_never_evicts (es : list event) (st : service) (k : string) :
  is_Some (tmdbCache st !! k) -> is_Some (tmdbCache (run es st) !! k).
Proof.
  revert st. induction es as [|e es IH]; intros st Hk; simpl; [done|].
  by apply IH, exec_keeps_entries.
Qed.

Lemma cache_never_evicts_witness :
  is_Some (tmdbCache
             (run [ESetApiKey (Some "key"); ESearch "Alien" None 1000;
                   EResponse 0 NetworkError 1200]
                  (init Samples.stale_cache)) !! "zardoz-unknown").
Proof.
  apply cache_never_evicts. vm_compute. by eexists.
Defined.

(** X23.  After a card has delivered a match for an item that had no
    rating recorded, the rating used for sorting is the match's vote
    average, also when that is 0 (which is not recorded, and an
    unrecorded rating counts as 0); a [null] match changes nothing.
    The identifier is one that does not name a property every object
    inherits. *)
Theorem handleTmdbData_rating
    (f : filters) (m : movie) (prev : gmap string Q) (d : match_result) :
  own_key (identifier m) = true ->
  prev !! identifier m = None ->
  tmdbRatings f = handleTmdbData (identifier m) (Some d) prev ->
  (rating_of f m == voteAverage d)%Q
  /\ handleTmdbData (identifier m) None prev = prev.
Proof.
  intros _ Hnone Hf. split; [|done].
  unfold rating_of. rewrite Hf. unfold handleTmdbData.
  destruct (Qeq_bool (voteAverage d) 0) eqn:Hz.
  - rewrite Hnone. apply Qeq_bool_iff in Hz. by symmetry.
  - by rewrite lookup_insert_eq.
Qed.

Lemma handleTmdbData_rating_witness :
  let d := {| r_id := 348; r_title := "Alien"; posterPath := None;
              backdropPath := None; releaseDate := None; overview := "";
              voteAverage := (15 # 2)%Q; genreIds := [] |} in
  let f := {| activeSearch := ""; tmdbApiKey := "key";
              contentType := Features; minRuntime := of_N 40;
              genreFilter := "all"; sortBy := "rating";
              moviesWithoutImages := ∅;
              tmdbRatings := handleTmdbData "alien" (Some d) ∅ |} in
  (rating_of f (item "alien") == (15 # 2))%Q
  /\ handleTmdbData "alien" None (∅ : gmap string Q) = ∅.
Proof.
  intros d f.
  apply (handleTmdbData_rating f (item "alien") ∅ d); reflexivity.
Defined.

End KeepFacts.

(* ===================================================================== *)
(** * The list the component holds *)
(* ===================================================================== *)

Module ComponentFacts.
Import Js JsNum Tmdb Browser Handlers Component JsFacts CacheFacts BrowserFacts
  MatchFacts.

Lemma same_number_refl (a : jsnum) : same_number a a = true.
Proof. destruct a as [|q]; [done|]. simpl. apply Qeq_bool_iff. reflexivity. Qed.

Lemma same_content_refl (c : content_type) : same_content c c = true.
Proof. by destruct c. Qed.


Lemma step_refreshes a st : refreshes a = true -> fresh (step a st).
Proof.
  destruct a as [ld|q|g|s| | |n|id h|id d|t y d now]; simpl; try done.
  - destruct (result ld), (shouldAppend ld); done.
  - destruct h; done.
Qed.

Lemma step_quiet a st :
  quiet a = true ->
  b_filtered (step a st) = b_filtered st
  /\ b_movies (step a st) = b_movies st
  /\ moviesWithoutImages (b_filters (step a st)) = moviesWithoutImages (b_filters st)
  /\ activeSearch (b_filters (step a st)) = activeSearch (b_filters st)
  /\ tmdbApiKey (b_filters (step a st)) = tmdbApiKey (b_filters st)
  /\ minRuntime (b_filters (step a st)) = minRuntime (b_filters st)
  /\ contentType (b_filters (step a st)) = contentType (b_filters st).
Proof.
  destruct a as [ld|q|g|s| | |n|id h|id d|t y d now]; simpl; try done.
  - by intros ->.
  - intros _. unfold same_primitives. simpl.
    rewrite same_number_refl, same_content_refl, !bool_decide_eq_true_2 by done.
    done.
Qed.

Lemma steps_quiet ws st :
  forallb quiet ws = true ->
  b_filtered (steps ws st) = b_filtered st
  /\ b_movies (steps ws st) = b_movies st
  /\ moviesWithoutImages (b_filters (steps ws st)) = moviesWithoutImages (b_filters st)
  /\ activeSearch (b_filters (steps ws st)) = activeSearch (b_filters st)
  /\ tmdbApiKey (b_filters (steps ws st)) = tmdbApiKey (b_filters st)
  /\ minRuntime (b_filters (steps ws st)) = minRuntime (b_filters st)
  /\ contentType (b_filters (steps ws st)) = contentType (b_filters st).
Proof.
  revert st. induction ws as [|a ws IH]; intros st Hq; [done|].
  simpl in Hq. apply andb_true_iff in Hq as [Ha Hws].
  destruct (step_quiet a st Ha) as (H1 & H2 & H3 & H4 & H5 & H6 & H7).
  destruct (IH (step a st) Hws) as (K1 & K2 & K3 & K4 & K5 & K6 & K7).
  simpl. repeat split; congruence.
Qed.

(** C7 does not hold of the component.  [filteredByRuntime] is
    recomputed only when one of its listed dependencies changes, and
    the cache is not among them.  The page [a, b, c] is loaded.  The
    card of [b] shows the thumbnail of the archive and reports that it
    has an image.  Then the lookup for [b] ends without a match and the
    service writes [null] into the cache.  The rating of [a] arrives
    and the component renders again.  No dependency has changed, so the
    list still holds [b], although no search is active, the API key is
    present, and [hasCachedPoster] answers [false] for [b]: the
    callback, run on the state as it is, leaves [b] out. *)
Theorem cached_missing_still_listed :
  let b := item "b" in
  let rated := {| r_id := 1; r_title := "a"; posterPath := Some "/a.jpg";
                  backdropPath := None; releaseDate := None; overview := "";
                  voteAverage := (15 # 2)%Q; genreIds := [] |} in
  let acts := [ Loaded {| pageNum := 1; shouldAppend := false;
                          result := Page [item "a"; b; item "c"] |};
                ImageStatus "b" true;
                CacheSet "b" None None 1200;
                TmdbData "a" (Some rated) ] in
  let st := steps acts (mount ∅ "key") in
  activeSearch (b_filters st) = ""
  /\ tmdbApiKey (b_filters st) = "key"
  /\ in_bucket (b_filters st) b = true
  /\ hasCachedPoster (b_cache st) (title b) (year b) = Some false
  /\ b_filtered st = [item "a"; b; item "c"]
  /\ filteredByRuntime (b_cache st) (b_filters st) (b_movies st)
     = [item "a"; item "c"].
Proof. repeat split; vm_compute; reflexivity. Qed.

(** X7.  An entry holding [null] that is older than the TTL is no longer
    found by [getFromCache], so the service treats the key as not looked
    up; [hasCachedPoster] does not look at the age and still answers
    [false].  When the list is computed on a cache with such an entry,
    with an API key and no search, it leaves out every item with that
    title and year, and the item stays out through every later write to
    the cache, until a dependency of the list changes. *)
Theorem expired_negative_still_hides
    (st : browser) (ws : list action) (e : cache_entry) (m : movie) (now : Z) :
  fresh st -> forallb quiet ws = true ->
  b_cache st !! getCacheKey (title m) (year m) = Some e ->
  data e = None ->
  CACHE_DURATION <= now - timestamp e ->
  activeSearch (b_filters st) = "" -> tmdbApiKey (b_filters st) <> "" ->
  found (getFromCache (b_cache st) (title m) (year m) now) = false
  /\ hasCachedPoster (b_cache st) (title m) (year m) = Some false
  /\ (m ∉ b_filtered st)
  /\ (m ∉ b_filtered (steps ws st)).
Proof.
  intros Hfresh Hq He Hd Hold Hs Hk.
  destruct (expired_null_callback (b_cache st) e (b_filters st) (b_movies st)
              m now He Hd Hold Hs Hk) as (Hf & Hp & Hout).
  rewrite <- Hfresh in Hout.
  split; [done|]. split; [done|]. split; [done|].
  by rewrite (proj1 (steps_quiet ws st Hq)).
Qed.

Lemma expired_negative_still_hides_witness :
  let st := step (Loaded {| pageNum := 1; shouldAppend := false;
                            result := Page [item "a"; item "Zardoz"] |})
                 (mount Samples.stale_cache "key") in
  let ws := [ CacheSet "Zardoz" None (Some (to_result alien))
                       (CACHE_DURATION + 5);
              ImageStatus "a" true ] in
  b_filtered st = [item "a"]
  /\ hasCachedPoster (b_cache (steps ws st)) "Zardoz" None = Some true
  /\ (item "Zardoz" ∉ b_filtered (steps ws st)).
Proof.
  intros st ws.
  split; [vm_compute; reflexivity|]. split; [vm_compute; reflexivity|].
  refine (proj2 (proj2 (proj2
            (expired_negative_still_hides st ws {| data := None; timestamp := 0 |}
               (item "Zardoz") CACHE_DURATION _ _ _ _ _ _ _)))).
  - apply step_refreshes. reflexivity.
  - reflexivity.
  - vm_compute. reflexivity.
  - reflexivity.
  - vm_compute. discriminate.
  - reflexivity.
  - discriminate.
Defined.


End ComponentFacts.
